(** * static/web.js: row visibility toggles and auto-sizing text areas

    A shallow embedding of the two copies of [static/web.js] over a small
    model of the browser DOM and of the jQuery operations the scripts call,
    followed by the properties of the specification.

    - The document is a tree of elements; an element is addressed by its
      path from the root, and a jQuery set is a list of paths in document
      order.
    - Handlers bound with [.change(fn)], [.keyup(fn)], ... are stored on
      the element they are bound to, as defunctionalised closures.
    - Triggering an event walks from the target up through its ancestors
      to the window and runs the handlers met on the way (bubbling).
      A handler may trigger events itself, so dispatch is indexed by a
      nesting budget. *)

From stdpp Require Import base decidable option list strings gmap pretty.

Local Open Scope string_scope.
Local Open Scope nat_scope.
Local Open Scope list_scope.

(* stdpp's solvers clear hypotheses that may already be gone. *)
#[local] Set Warnings "-clear-no-such-hyp".

(** ** Elements, documents, pages *)

Definition path := list nat.

Inductive event := Change | KeyUp | KeyDown | Resize.

(** The functions the scripts pass to jQuery's binders.  [fn_update self]
    is the closure [update] created for the text area [self];
    [fn_togglechildren cascade] is the anonymous handler of
    ['.togglechildren'], whose first copy ends in [.change()]
    ([cascade = true]) and whose second copy does not. *)
Inductive handler :=
  | fn_UpdateRow
  | fn_togglechildren (cascade : bool)
  | fn_togglesection
  | fn_update (self : path).

Global Instance event_eq_dec : EqDecision event.
Proof. solve_decision. Defined.
Global Instance handler_eq_dec : EqDecision handler.
Proof. solve_decision. Defined.

Record element := Element {
  tag : string;                        (* nodeName, lower case *)
  classes : list string;               (* tokens of the class attribute *)
  checked : bool;                      (* the [checked] property *)
  selected : bool;                     (* the [selected] property *)
  value : string;                      (* text content of a text area *)
  style : gmap string string;          (* inline style declarations *)
  listeners : list (event * handler)   (* handlers bound through jQuery *)
}.

Local Unset Elimination Schemes.
Inductive node := Node (e : element) (kids : list node).
Local Set Elimination Schemes.

Definition node_el (n : node) : element := match n with Node e _ => e end.
Definition node_kids (n : node) : list node := match n with Node _ ks => ks end.

Record page := Page {
  document : node;
  window_listeners : list (event * handler);
  viewport : nat * nat
}.

Definition set_classes (cs : list string) (e : element) : element :=
  Element (tag e) cs (checked e) (selected e) (value e) (style e) (listeners e).
Definition set_checked (b : bool) (e : element) : element :=
  Element (tag e) (classes e) b (selected e) (value e) (style e) (listeners e).
Definition set_style (k v : string) (e : element) : element :=
  Element (tag e) (classes e) (checked e) (selected e) (value e)
          (<[k := v]> (style e)) (listeners e).
Definition add_listener (ev : event) (h : handler) (e : element) : element :=
  Element (tag e) (classes e) (checked e) (selected e) (value e) (style e)
          (listeners e ++ [(ev, h)]).

Definition set_document (d : node) (s : page) : page :=
  Page d (window_listeners s) (viewport s).
Definition add_window_listener (ev : event) (h : handler) (s : page) : page :=
  Page (document s) (window_listeners s ++ [(ev, h)]) (viewport s).

(** ** Navigation in the tree *)

Fixpoint lookup_node (p : path) (n : node) : option node :=
  match p with
  | [] => Some n
  | i :: p' =>
      match node_kids n !! i with
      | Some k => lookup_node p' k
      | None => None
      end
  end.

Fixpoint modify (f : element → element) (p : path) (n : node) : node :=
  match p with
  | [] => Node (f (node_el n)) (node_kids n)
  | i :: p' => Node (node_el n) (alter (modify f p') i (node_kids n))
  end.

(** All elements of the document, in document order. *)
Fixpoint paths (n : node) : list path :=
  match n with
  | Node _ ks =>
      [] :: mjoin (imap (λ i ps, (cons i) <$> ps) (paths <$> ks) : list (list path))
  end.

Definition elem_at (p : path) (s : page) : option element :=
  node_el <$> lookup_node p (document s).

Definition alter_el (f : element → element) (p : path) (s : page) : page :=
  set_document (modify f p (document s)) s.

Definition elements (s : page) : list path := paths (document s).

(** The proper ancestors of [p], nearest first: its parent, ..., the root. *)
Definition ancestors (p : path) : list path :=
  (λ k, take k p) <$> reverse (seq 0 (length p)).

(** [p] followed by its ancestors: the order in which [closest] tests
    elements and in which an event bubbles. *)
Definition inclusive_ancestors (p : path) : list path := p :: ancestors p.

Definition is_descendant (p t : path) : Prop := t `prefix_of` p ∧ t ≠ p.

(** ** The jQuery operations used by the scripts *)

Definition has_class (c : string) (e : element) : bool := bool_decide (c ∈ classes e).

Definition matches_class (c : string) (s : page) (p : path) : bool :=
  from_option (has_class c) false (elem_at p s).

Definition matches_tag (t : string) (s : page) (p : path) : bool :=
  from_option (λ e, bool_decide (tag e = t)) false (elem_at p s).

(** The [:checked] pseudo-class: a checked [input] or a selected [option]. *)
Definition pseudo_checked (e : element) : bool :=
  bool_decide (tag e = "input") && checked e
  || bool_decide (tag e = "option") && selected e.

(** [$('.c')] and [$('t')]. *)
Definition select_class (c : string) (s : page) : list path :=
  filter (λ p, matches_class c s p) (elements s).
Definition select_tag (t : string) (s : page) : list path :=
  filter (λ p, matches_tag t s p) (elements s).

(** [$(this).is(':checked')]. *)
Definition is_checked (this : path) (s : page) : bool :=
  from_option pseudo_checked false (elem_at this s).

(** [$(this).closest(t)]: the first of [this] and its ancestors with tag
    [t]; a set of at most one element. *)
Definition closest (t : string) (this : path) (s : page) : list path :=
  option_list (snd <$> list_find (λ q, matches_tag t s q) (inclusive_ancestors this)).

(** [set.find('.c')]: the descendants, at any depth, of the elements of
    [set] that carry class [c], in document order. *)
Definition find_class (c : string) (set : list path) (s : page) : list path :=
  filter (λ p, matches_class c s p ∧ Exists (is_descendant p) set) (elements s).

(** Apply a mutation to every element of a set. *)
Definition each_el (f : element → element) (set : list path) (s : page) : page :=
  foldl (λ s p, alter_el f p s) s set.

Definition add_class (c : string) (e : element) : element :=
  if has_class c e then e else set_classes (classes e ++ [c]) e.
Definition remove_class (c : string) (e : element) : element :=
  set_classes (filter (λ c', c' ≠ c) (classes e)) e.

Definition addClass (c : string) := each_el (add_class c).
Definition removeClass (c : string) := each_el (remove_class c).
Definition prop_checked (b : bool) := each_el (set_checked b).
Definition css (k v : string) := each_el (set_style k v).
Definition bind (ev : event) (h : handler) := each_el (add_listener ev h).

(** [set.each(fn)]. *)
Definition each (fn : path → page → page) (set : list path) (s : page) : page :=
  foldl (λ s this, fn this s) s set.

(** ** The handlers of [static/web.js] *)

(** [function UpdateRow()], lines 1-12 and 61-72: the same in both copies. *)
Definition UpdateRow (this : path) (s : page) : page :=
  let checked := is_checked this s in
  if checked then removeClass "ignore" (closest "tr" this s) s
  else addClass "ignore" (closest "tr" this s) s.

(** The handler of ['.togglesection'] (first copy only). *)
Definition togglesection (this : path) (s : page) : page :=
  if is_checked this s then removeClass "ignore" (closest "table" this s) s
  else addClass "ignore" (closest "table" this s) s.

(** The handler of ['.togglechildren'].  The receiver
    [$(this).closest('table').find('.togglevisible')] is evaluated once;
    [.prop] and, in the first copy, [.change()] act on that same set.
    [change] is jQuery's [.change()] with no argument. *)
Definition togglechildren_B (this : path) (s : page) : page :=
  let set := find_class "togglevisible" (closest "table" this s) s in
  prop_checked (is_checked this s) set s.

Definition togglechildren_A (change : list path → page → option page)
    (this : path) (s : page) : option page :=
  let set := find_class "togglevisible" (closest "table" this s) s in
  change set (prop_checked (is_checked this s) set s).

(** ** Event dispatch *)

Definition handlers_for (ev : event) (l : list (event * handler)) : list handler :=
  snd <$> filter (λ eh, eh.1 = ev) l.

Definition listeners_at (ev : event) (p : path) (s : page) : list handler :=
  from_option (λ e, handlers_for ev (listeners e)) [] (elem_at p s).

(** What [this] is bound to when a handler runs. *)
Inductive target := Window | Elem (p : path).

Fixpoint seq_run {A} (f : A → page → option page) (l : list A) (s : page)
    : option page :=
  match l with
  | [] => Some s
  | a :: l' => s' ← f a s; seq_run f l' s'
  end.

Definition dispatch_window (run : handler → target → page → option page)
    (ev : event) (s : page) : option page :=
  seq_run (λ h, run h Window) (handlers_for ev (window_listeners s)) s.

(** One event at one element: the handlers of the element, then those of
    each ancestor up to the root, then those of the window. *)
Definition dispatch (run : handler → target → page → option page)
    (ev : event) (t : path) (s : page) : option page :=
  s' ← seq_run (λ cur s, seq_run (λ h, run h (Elem cur)) (listeners_at ev cur s) s)
               (inclusive_ancestors t) s;
  dispatch_window run ev s'.

(** [set.change()], [set.trigger(ev)]: one dispatch per element, in order. *)
Definition trigger (run : handler → target → page → option page)
    (ev : event) (set : list path) (s : page) : option page :=
  seq_run (dispatch run ev) set s.

Section Scripts.

(** The rendering engine: [scrollHeight s p] is what reading the
    [scrollHeight] property of the element at [p] returns when the page is
    in state [s] (an integer number of pixels). *)
Variable scrollHeight : page → path → nat.

(** [function update()], the closure created for each text area. *)
Definition update (self : path) (s : page) : page :=
  let s := css "height" "1em" [self] s in
  let height := scrollHeight s self in
  css "height" (pretty height +:+ "px") [self] s.

(** Running a handler with a bound on the depth of nested handler calls.
    Both scripts bind only [update] to the window; the other handlers are
    given no result there. *)
Fixpoint run (fuel : nat) (h : handler) (this : target) (s : page) : option page :=
  match fuel with
  | 0 => None
  | S fuel' =>
      match h, this with
      | fn_update self, _ => Some (update self s)
      | fn_UpdateRow, Elem this => Some (UpdateRow this s)
      | fn_togglesection, Elem this => Some (togglesection this s)
      | fn_togglechildren true, Elem this =>
          togglechildren_A (trigger (run fuel') Change) this s
      | fn_togglechildren false, Elem this => Some (togglechildren_B this s)
      | _, Window => None
      end
  end.

(** The text-area part of the ready callback, common to both copies. *)
Definition bind_textarea (this : path) (s : page) : page :=
  let self := this in
  let s := bind Change (fn_update self) [this] s in
  let s := bind KeyUp (fn_update self) [this] s in
  let s := bind KeyDown (fn_update self) [this] s in
  let s := add_window_listener Resize (fn_update self) s in
  update self s.

Definition bind_togglevisible (this : path) (s : page) : page :=
  let s := bind Change fn_UpdateRow [this] s in
  UpdateRow this s.

(** [$(function() { ... })] of the first copy (lines 14-60). *)
Definition ready_A (fuel : nat) (s : page) : option page :=
  let s := each bind_togglevisible (select_class "togglevisible" s) s in
  let s := bind Change (fn_togglechildren true) (select_class "togglechildren" s) s in
  let s := bind Change fn_togglesection (select_class "togglesection" s) s in
  s ← trigger (run fuel) Change (select_class "togglesection" s) s;
  Some (each bind_textarea (select_tag "textarea" s) s).

(** [$(function() { ... })] of the second copy (lines 74-106). *)
Definition ready_B (s : page) : page :=
  let s := each bind_togglevisible (select_class "togglevisible" s) s in
  let s := bind Change (fn_togglechildren false) (select_class "togglechildren" s) s in
  each bind_textarea (select_tag "textarea" s) s.

(** ** Mutations that leave a view of every element unchanged *)

Definition agree {X} (proj : element → X) (s s' : page) : Prop :=
  ∀ q, proj <$> elem_at q s' = proj <$> elem_at q s.

(** ** The two class-synchronising handlers

    [UpdateRow] and the ['.togglesection'] handler are the same code up to
    the tag passed to [closest]. *)

Definition sync_ignore (t : string) (this : path) (s : page) : page :=
  if is_checked this s then removeClass "ignore" (closest t this s) s
  else addClass "ignore" (closest t this s) s.

(** ** What no handler changes

    Every write of the handlers goes to the ["ignore"] class, to the
    [checked] property or to the inline style.  The rest of an element is
    its skeleton. *)

Definition skeleton (e : element)
    : string * list string * bool * string * list (event * handler) :=
  (tag e, filter (λ c, c ≠ "ignore") (classes e), selected e, value e, listeners e).

Definition shape (e : element) : string * list string :=
  (tag e, filter (λ c, c ≠ "ignore") (classes e)).

Record benign (s s' : page) : Prop := Benign {
  benign_elements : elements s' = elements s;
  benign_window : window_listeners s' = window_listeners s;
  benign_viewport : viewport s' = viewport s;
  benign_skeleton : agree skeleton s s'
}.

(** ** The DOM contract and the installed handlers *)

Inductive copy := First | Second.

Definition cascades (v : copy) : bool :=
  match v with First => true | Second => false end.

Definition markers : list string := ["togglevisible"; "togglechildren"; "togglesection"].

(** The marker classes an element carries. *)
Definition roles (e : element) : list string := filter (λ m, has_class m e) markers.

Definition is_leaf (p : path) (s : page) : Prop := elem_at (p ++ [0]) s = None.

Definition all_elements (P : path → element → Prop) (s : page) : Prop :=
  Forall (λ p, from_option (P p) True (elem_at p s)) (elements s).

(** What the scripts expect of the page: form controls have no child
    elements, the marker classes sit on [input] elements (checkboxes), and
    no element plays two roles. *)
Definition el_contract (s : page) (p : path) (e : element) : Prop :=
  (tag e = "input" ∨ tag e = "textarea" → is_leaf p s)
  ∧ (roles e ≠ [] → tag e = "input")
  ∧ length (roles e) ≤ 1.

Definition contract (s : page) : Prop := all_elements (el_contract s) s.

(** No handler is bound yet: the page as the ready callback finds it. *)
Definition fresh (s : page) : Prop :=
  all_elements (λ _ e, listeners e = []) s ∧ window_listeners s = [].

(** The listeners a copy of the script has bound once its ready callback
    has run. *)
Definition class_listeners (v : copy) (e : element) : list (event * handler) :=
  (if has_class "togglevisible" e then [(Change, fn_UpdateRow)] else [])
  ++ (if has_class "togglechildren" e then [(Change, fn_togglechildren (cascades v))] else [])
  ++ (if cascades v && has_class "togglesection" e then [(Change, fn_togglesection)] else []).

Definition textarea_listeners (p : path) (e : element) : list (event * handler) :=
  if bool_decide (tag e = "textarea")
  then [(Change, fn_update p); (KeyUp, fn_update p); (KeyDown, fn_update p)] else [].

Definition expected (v : copy) (p : path) (e : element) : list (event * handler) :=
  class_listeners v e ++ textarea_listeners p e.

Definition installed (v : copy) (s : page) : Prop :=
  all_elements (λ p e, listeners e = expected v p e) s
  ∧ window_listeners s = (λ t, (Resize, fn_update t)) <$> select_tag "textarea" s.

Global Instance from_option_dec {A} (P : A → Prop) `{∀ a, Decision (P a)} (o : option A) :
  Decision (from_option P True o).
Proof. destruct o; simpl; apply _. Defined.

Global Instance all_elements_dec P `{∀ p e, Decision (P p e)} s : Decision (all_elements P s).
Proof. unfold all_elements. apply _. Defined.

Global Instance is_leaf_dec p s : Decision (is_leaf p s).
Proof. unfold is_leaf. apply _. Defined.

Global Instance element_eq_dec : EqDecision element.
Proof. solve_decision. Defined.

Global Instance el_contract_dec s p e : Decision (el_contract s p e).
Proof. unfold el_contract. apply _. Defined.

Global Instance contract_dec s : Decision (contract s).
Proof. unfold contract. apply _. Defined.

Global Instance fresh_dec s : Decision (fresh s).
Proof. unfold fresh. apply _. Defined.

Global Instance installed_dec v s : Decision (installed v s).
Proof. unfold installed. apply _. Defined.

(** ** Loops that synchronise a class *)

(** What the handlers read of an element. *)
Definition semantic (e : element) : string * list string * bool * bool :=
  (tag e, classes e, checked e, selected e).

(** ** The ready callbacks *)

(** What the ready callbacks leave alone in every element: all but the
    ["ignore"] class, the inline style and the listeners. *)
Definition stable (e : element) : string * list string * bool * bool * string :=
  (tag e, filter (λ c, c ≠ "ignore") (classes e), checked e, selected e, value e).

Record undisturbed (s s' : page) : Prop := Undisturbed {
  undisturbed_elements : elements s' = elements s;
  undisturbed_viewport : viewport s' = viewport s;
  undisturbed_stable : agree stable s s'
}.

(** *** The common part: the row checkboxes *)

Definition rows_bound (s : page) : page :=
  each bind_togglevisible (select_class "togglevisible" s) s.

(** *** The first copy *)

(** The page when the first copy reaches [$('.togglesection').change()]. *)
Definition classes_bound (s : page) : page :=
  let s := rows_bound s in
  let s := bind Change (fn_togglechildren true) (select_class "togglechildren" s) s in
  bind Change fn_togglesection (select_class "togglesection" s) s.

(** The page the first copy's ready callback leaves, when the triggered
    change events only reach the section handler. *)
Definition ready_A_result (s : page) : page :=
  let s := classes_bound s in
  let s := each togglesection (select_class "togglesection" s) s in
  each bind_textarea (select_tag "textarea" s) s.

(** The class-selected listeners are bound, the text areas' are not. *)
Definition armed (s : page) : Prop :=
  all_elements (λ _ e, listeners e = class_listeners First e) s ∧ window_listeners s = [].

(** ** Rows and tables in sync *)

(** [c]'s closest [t] element carries ["ignore"] iff [c] is not checked. *)
Definition in_sync (t : string) (c : path) (s : page) : Prop :=
  ∀ r, closest t c s = [r] → matches_class "ignore" s r = negb (is_checked c s).

Definition row_in_sync := in_sync "tr".
Definition table_in_sync := in_sync "table".

(** The elements of class [m] whose closest [t] element is that of [c],
    in document order: the order in which the loops of the ready
    callbacks visit them. *)
Definition sharing (t m : string) (c : path) (s : page) : list path :=
  filter (λ c', closest t c' s = closest t c s) (select_class m s).

(** The one visited last ([c] itself when it is alone). *)
Definition last_sharing (t m : string) (c : path) (s : page) : path :=
  default c (last (sharing t m c s)).

(** ** The children toggle *)

(** [$(t).closest('table').find('.togglevisible')]. *)
Definition children_of (t : path) (s : page) : list path :=
  find_class "togglevisible" (closest "table" t s) s.

(** The page after a change event at a children toggle of the first copy. *)
Definition cascade (t : path) (s : page) : page :=
  each UpdateRow (children_of t s) (togglechildren_B t s).

(** *** The scenario of the specification *)

Definition el (t : string) (cs : list string) (c : bool) : element :=
  Element t cs c false "" ∅ [].

(** A table with a checked children toggle [C] in its first row and two
    rows [R1], [R2], each holding a checked row check-box. *)
Definition scenario : page :=
  Page
    (Node (el "html" [] false)
       [Node (el "body" [] false)
          [Node (el "table" [] false)
             [Node (el "tbody" [] false)
                [Node (el "tr" [] false)
                   [Node (el "th" [] false)
                      [Node (el "input" ["togglechildren"] true) []]];
                 Node (el "tr" [] false)
                   [Node (el "td" [] false)
                      [Node (el "input" ["togglevisible"] true) []]];
                 Node (el "tr" [] false)
                   [Node (el "td" [] false)
                      [Node (el "input" ["togglevisible"] true) []]]]]]])
    [] (1024, 768).

Definition toggle_C : path := [0; 0; 0; 0; 0; 0].
Definition row_R1 : path := [0; 0; 0; 1].
Definition box_R1 : path := [0; 0; 0; 1; 0; 0].
Definition row_R2 : path := [0; 0; 0; 2].
Definition box_R2 : path := [0; 0; 0; 2; 0; 0].

(** A table of one row and one cell that holds two check-boxes of class
    [m], the first clear and the second checked. *)
Definition two_boxes (m : string) : page :=
  Page
    (Node (el "html" [] false)
       [Node (el "body" [] false)
          [Node (el "table" [] false)
             [Node (el "tbody" [] false)
                [Node (el "tr" [] false)
                   [Node (el "td" [] false)
                      [Node (el "input" [m] false) [];
                       Node (el "input" [m] true) []]]]]]])
    [] (1024, 768).

Definition the_table : path := [0; 0].
Definition the_row : path := [0; 0; 0; 0].
Definition clear_box : path := [0; 0; 0; 0; 0; 0].
Definition set_box : path := [0; 0; 0; 0; 0; 1].

(** The user clears a check-box; the browser then fires [change] at it. *)
Definition uncheck (c : path) (s : page) : page := prop_checked false [c] s.

(** ** The set reached by the children toggle *)

(** An outer table whose third row holds an inner table; each table has a
    children toggle and a row check-box of its own. *)
Definition nested : page :=
  Page
    (Node (el "html" [] false)
       [Node (el "body" [] false)
          [Node (el "table" [] false)
             [Node (el "tr" [] false)
                [Node (el "td" [] false) [Node (el "input" ["togglechildren"] false) []]];
              Node (el "tr" [] false)
                [Node (el "td" [] false) [Node (el "input" ["togglevisible"] true) []]];
              Node (el "tr" [] false)
                [Node (el "td" [] false)
                   [Node (el "table" [] false)
                      [Node (el "tr" [] false)
                         [Node (el "td" [] false)
                            [Node (el "input" ["togglechildren"] true) []]];
                       Node (el "tr" [] false)
                         [Node (el "td" [] false)
                            [Node (el "input" ["togglevisible"] true) []]]]]]]]])
    [] (1024, 768).

Definition outer_toggle : path := [0; 0; 0; 0; 0].
Definition outer_box : path := [0; 0; 1; 0; 0].
Definition inner_toggle : path := [0; 0; 2; 0; 0; 0; 0; 0].
Definition inner_box : path := [0; 0; 2; 0; 0; 1; 0; 0].

(** ** Text areas *)

(** The inline [height] of an element. *)
Definition height_of (p : path) (s : page) : option string :=
  elem_at p s ≫= λ e, style e !! "height".

(** An element but for its inline [height]. *)
Definition sans_height (e : element)
    : string * list string * bool * bool * string * gmap string string
      * list (event * handler) :=
  (tag e, classes e, checked e, selected e, value e, delete "height" (style e), listeners e).

(** What [bind_textarea] does before it calls [update]. *)
Definition bind_textarea_listeners_only (this : path) (s : page) : page :=
  add_window_listener Resize (fn_update this)
    (bind KeyDown (fn_update this) [this]
       (bind KeyUp (fn_update this) [this] (bind Change (fn_update this) [this] s))).

(** ** A page outside the contract

    A check-box that is both a row check-box and a children toggle. *)

Definition looping : page :=
  Page
    (Node (el "html" [] false)
       [Node (el "body" [] false)
          [Node (el "table" [] false)
             [Node (el "tr" [] false)
                [Node (el "td" [] false)
                   [Node (el "input" ["togglevisible"; "togglechildren"] true) []]]]]])
    [] (1024, 768).

Definition looping_box : path := [0; 0; 0; 0; 0].

(** ** The states a page goes through

    The hypotheses [contract] and [installed] of the statements above hold
    in every state that follows the ready callback of a copy on a fresh
    page that meets the contract: the user checks and unchecks boxes and
    edits text areas, the window is resized, events are dispatched. *)

Definition set_value (txt : string) (e : element) : element :=
  Element (tag e) (classes e) (checked e) (selected e) txt (style e) (listeners e).

Definition set_viewport (w h : nat) (s : page) : page :=
  Page (document s) (window_listeners s) (w, h).

Inductive reachable (loaded : page) : page → Prop :=
  | reach_loaded : reachable loaded loaded
  | reach_check s c b :
      reachable loaded s → reachable loaded (prop_checked b [c] s)
  | reach_edit s t txt :
      reachable loaded s → reachable loaded (alter_el (set_value txt) t s)
  | reach_resized s w h :
      reachable loaded s → reachable loaded (set_viewport w h s)
  | reach_dispatch s fuel ev c s' :
      reachable loaded s → dispatch (run fuel) ev c s = Some s' → reachable loaded s'
  | reach_dispatch_window s fuel ev s' :
      reachable loaded s → dispatch_window (run fuel) ev s = Some s' → reachable loaded s'.

(** What [contract] and [installed] depend on. *)
Definition wiring (e : element) : string * list string * list (event * handler) :=
  (tag e, filter (λ c, c ≠ "ignore") (classes e), listeners e).

Record same_wiring (s s' : page) : Prop := SameWiring {
  same_wiring_elements : elements s' = elements s;
  same_wiring_window : window_listeners s' = window_listeners s;
  same_wiring_agree : agree wiring s s'
}.

(** ** Concrete pages *)

(** A layout in which a text area is sixteen pixels high per character of
    content, plus one line. *)
Definition line_layout (s : page) (p : path) : nat :=
  from_option (λ e, 16 * S (String.length (value e))) 0 (elem_at p s).

Definition el_text (txt : string) : element :=
  Element "textarea" [] false false txt ∅ [].

(** A table with an unchecked section check-box and a checked row
    check-box, two text areas, and a row check-box outside any row. *)
Definition form : page :=
  Page
    (Node (el "html" [] false)
       [Node (el "body" [] false)
          [Node (el "table" [] false)
             [Node (el "tr" [] false)
                [Node (el "td" [] false) [Node (el "input" ["togglesection"] false) []]];
              Node (el "tr" [] false)
                [Node (el "td" [] false) [Node (el "input" ["togglevisible"] true) []]]];
           Node (el_text "ab") [];
           Node (el "input" ["togglevisible"] false) [];
           Node (el_text "") []]])
    [] (1024, 768).

Definition section_box : path := [0; 0; 0; 0; 0].
Definition form_box : path := [0; 0; 1; 0; 0].
Definition first_area : path := [0; 1].
Definition stray_box : path := [0; 2].
Definition second_area : path := [0; 3].

(** ** Sessions *)

(** The browser's default action for a click on a check-box. *)
Definition flip (e : element) : element := set_checked (negb (checked e)) e.

(** No row is the closest row of two row check-boxes. *)
Definition rows_exclusive (s : page) : Prop :=
  Forall (λ c, Forall (λ c', closest "tr" c' s = closest "tr" c s →
                             closest "tr" c s = [] ∨ c' = c)
                      (select_class "togglevisible" s))
         (select_class "togglevisible" s).

Global Instance rows_exclusive_dec s : Decision (rows_exclusive s).
Proof. unfold rows_exclusive. apply _. Defined.

(** What a user does to a loaded page, with the events the browser fires:
    a click on an [input] flips [checked] and fires [change] at it; an
    edit sets the [value] of an element and fires a key event or [change]
    at it; a resize of the window fires [resize] at the window. *)
Inductive session (loaded : page) : page → Prop :=
  | session_loaded : session loaded loaded
  | session_click s fuel c s' :
      session loaded s → matches_tag "input" s c →
      dispatch (run fuel) Change c (alter_el flip c s) = Some s' →
      session loaded s'
  | session_edit s fuel ev t txt s' :
      session loaded s → is_Some (elem_at t s) → ev ∈ [KeyDown; KeyUp; Change] →
      dispatch (run fuel) ev t (alter_el (set_value txt) t s) = Some s' →
      session loaded s'
  | session_resize s fuel w h s' :
      session loaded s →
      dispatch_window (run fuel) Resize (set_viewport w h s) = Some s' →
      session loaded s'.

(** No table is the closest table of two section check-boxes. *)
Definition tables_exclusive (s : page) : Prop :=
  Forall (λ c, Forall (λ c', closest "table" c' s = closest "table" c s →
                             closest "table" c s = [] ∨ c' = c)
                      (select_class "togglesection" s))
         (select_class "togglesection" s).

Global Instance tables_exclusive_dec s : Decision (tables_exclusive s).
Proof. unfold tables_exclusive. apply _. Defined.

(** * Properties of the model *)

(** ** The document tree *)

Lemma node_ind (P : node → Prop) :
  (∀ e ks, Forall P ks → P (Node e ks)) → ∀ n, P n.
Proof.
  intros step. fix IH 1. intros [e ks]. apply step.
  induction ks as [|k ks IHks]; constructor; [apply IH | apply IHks].
Qed.

Lemma paths_unfold e ks :
  paths (Node e ks) = [] :: mjoin (imap (λ i ps, (cons i) <$> ps) (paths <$> ks) : list (list path)).
Proof. reflexivity. Qed.

Lemma elem_of_paths_kids (i : nat) (q : path) (ks : list node) :
  i :: q ∈ mjoin (imap (λ i ps, (cons i) <$> ps) (paths <$> ks) : list (list path))
  ↔ ∃ k, ks !! i = Some k ∧ q ∈ paths k.
Proof.
  rewrite list_elem_of_join. split.
  - intros (l & Hin & Hl). apply elem_of_lookup_imap in Hl as (j & ps & -> & Hj).
    rewrite list_lookup_fmap in Hj. apply fmap_Some in Hj as (k & Hk & ->).
    apply list_elem_of_fmap in Hin as (q' & [= -> ->] & Hq'). eauto.
  - intros (k & Hk & Hq). exists ((cons i) <$> paths k). split.
    + by apply list_elem_of_fmap_2.
    + apply elem_of_lookup_imap. exists i, (paths k). split; [done|].
      by rewrite list_lookup_fmap, Hk.
Qed.

Lemma elem_of_paths (p : path) (n : node) : p ∈ paths n ↔ is_Some (lookup_node p n).
Proof.
  revert p. induction n as [e ks IH] using node_ind. intros [|i q].
  - rewrite paths_unfold. simpl. split; [eauto | intros _; left].
  - rewrite paths_unfold, elem_of_cons, elem_of_paths_kids. simpl. split.
    + intros [?|(k & Hk & Hq)]; [done|]. rewrite Hk.
      rewrite Forall_lookup in IH. by apply (IH _ _ Hk).
    + destruct (ks !! i) as [k|] eqn:Hk; [|by intros [? ?]].
      intros Hq. right. exists k. split; [done|].
      rewrite Forall_lookup in IH. by apply (IH _ _ Hk).
Qed.

Lemma NoDup_join_imap {A B} (f : nat → A → list B) (l : list A) :
  (∀ i x, l !! i = Some x → NoDup (f i x)) →
  (∀ i j x y b, i ≠ j → l !! i = Some x → l !! j = Some y → b ∈ f i x → b ∉ f j y) →
  NoDup (mjoin (imap f l)).
Proof.
  revert f. induction l as [|a l IH]; intros f Hnd Hdisj; simpl; [constructor|].
  apply NoDup_app. split_and!.
  - by apply (Hnd 0).
  - intros b Hb (l' & Hin & Hl')%list_elem_of_join.
    apply elem_of_lookup_imap in Hl' as (j & y & -> & Hj).
    by apply (Hdisj 0 (S j) a y b).
  - apply IH.
    + intros i x Hi. by apply (Hnd (S i)).
    + intros i j x y b Hij Hi Hj. apply (Hdisj (S i) (S j)); auto.
Qed.

Lemma NoDup_paths (n : node) : NoDup (paths n).
Proof.
  induction n as [e ks IH] using node_ind. rewrite paths_unfold.
  apply NoDup_cons. split.
  - intros (l & Hin & Hl)%list_elem_of_join.
    apply elem_of_lookup_imap in Hl as (j & ps & -> & _).
    by apply list_elem_of_fmap in Hin as (? & ? & _).
  - apply NoDup_join_imap.
    + intros i ps Hi. rewrite list_lookup_fmap in Hi.
      apply fmap_Some in Hi as (k & Hk & ->).
      apply (NoDup_fmap_2 _). rewrite Forall_lookup in IH. by apply (IH _ _ Hk).
    + intros i j ps ps' b Hij _ _ (q & -> & _)%list_elem_of_fmap
        (q' & [= ? _] & _)%list_elem_of_fmap. done.
Qed.

Lemma paths_modify f p n : paths (modify f p n) = paths n.
Proof.
  revert n. induction p as [|i p IH]; intros [e ks]; simpl; [done|].
  do 2 f_equal.
  rewrite (list_fmap_alter paths (modify f p) id).
  - by rewrite list_alter_id.
  - apply Forall_forall. intros k _. apply IH.
Qed.

Lemma lookup_modify_el f p q n :
  node_el <$> lookup_node q (modify f p n)
  = (if decide (p = q) then f else id) <$> (node_el <$> lookup_node q n).
Proof.
  revert q n. induction p as [|i p IH]; intros [|j q] [e ks]; simpl.
  - done.
  - destruct (ks !! j); simpl; [|done]. by rewrite option_fmap_id.
  - done.
  - destruct (decide (i = j)) as [->|Hij].
    + rewrite list_lookup_alter_eq. destruct (ks !! j) as [k|]; simpl; [|done].
      rewrite IH. by repeat case_decide; simplify_eq.
    + rewrite list_lookup_alter_ne by done.
      rewrite decide_False by congruence. by rewrite option_fmap_id.
Qed.

Lemma modify_modify f g p n : modify f p (modify g p n) = modify (f ∘ g) p n.
Proof.
  revert n. induction p as [|i p IH]; intros [e ks]; simpl; [done|].
  f_equal. rewrite list_alter_alter_eq. apply list_alter_ext; [|done].
  intros k _. apply IH.
Qed.

Lemma modify_ext f g p n : (∀ e, f e = g e) → modify f p n = modify g p n.
Proof.
  intros Hfg. revert n. induction p as [|i p IH]; intros [e ks]; simpl.
  - by rewrite Hfg.
  - f_equal. apply list_alter_ext; [|done]. intros k _. apply IH.
Qed.

(** ** Pages: reading after writing *)

Lemma elem_at_elements p s : p ∈ elements s ↔ is_Some (elem_at p s).
Proof. unfold elements, elem_at. by rewrite elem_of_paths, fmap_is_Some. Qed.

Lemma elem_at_alter_el f p q s :
  elem_at q (alter_el f p s) = (if decide (p = q) then f else id) <$> elem_at q s.
Proof. apply lookup_modify_el. Qed.

Lemma elem_at_alter_el_eq f p s : elem_at p (alter_el f p s) = f <$> elem_at p s.
Proof. by rewrite elem_at_alter_el, decide_True. Qed.

Lemma elem_at_alter_el_ne f p q s : p ≠ q → elem_at q (alter_el f p s) = elem_at q s.
Proof. intros. by rewrite elem_at_alter_el, decide_False, option_fmap_id. Qed.

Lemma elements_alter_el f p s : elements (alter_el f p s) = elements s.
Proof. apply paths_modify. Qed.

Lemma each_el_cons f p set s : each_el f (p :: set) s = each_el f set (alter_el f p s).
Proof. reflexivity. Qed.

Lemma elements_each_el f set s : elements (each_el f set s) = elements s.
Proof.
  revert s. induction set as [|p set IH]; intros s; [done|].
  by rewrite each_el_cons, IH, elements_alter_el.
Qed.

Lemma window_listeners_each_el f set s :
  window_listeners (each_el f set s) = window_listeners s.
Proof. revert s. induction set as [|p set IH]; intros s; [done|]. by rewrite each_el_cons, IH. Qed.

Lemma viewport_each_el f set s : viewport (each_el f set s) = viewport s.
Proof. revert s. induction set as [|p set IH]; intros s; [done|]. by rewrite each_el_cons, IH. Qed.

Lemma elem_at_each_el_notin f set q s :
  q ∉ set → elem_at q (each_el f set s) = elem_at q s.
Proof.
  revert s. induction set as [|p set IH]; intros s Hq; [done|].
  apply not_elem_of_cons in Hq as [Hne Hq].
  by rewrite each_el_cons, IH, elem_at_alter_el_ne.
Qed.

Lemma elem_at_each_el_idemp f set q s :
  (∀ e, f (f e) = f e) → q ∈ set → elem_at q (each_el f set s) = f <$> elem_at q s.
Proof.
  intros Hf. revert s. induction set as [|p set IH]; intros s Hq.
  - by apply elem_of_nil in Hq.
  - rewrite each_el_cons. destruct (decide (q ∈ set)) as [Hin|Hnin].
    + rewrite IH by done. rewrite elem_at_alter_el. case_decide; [|by rewrite option_fmap_id].
      destruct (elem_at q s); simpl; [|done]. by rewrite Hf.
    + apply elem_of_cons in Hq as [->|?]; [|done].
      by rewrite elem_at_each_el_notin, elem_at_alter_el_eq.
Qed.

Lemma elem_at_each_el_NoDup f set q s :
  NoDup set → q ∈ set → elem_at q (each_el f set s) = f <$> elem_at q s.
Proof.
  revert s. induction set as [|p set IH]; intros s Hnd Hq.
  - by apply elem_of_nil in Hq.
  - apply NoDup_cons in Hnd as [Hp Hnd]. rewrite each_el_cons.
    apply elem_of_cons in Hq as [->|Hq].
    + by rewrite elem_at_each_el_notin, elem_at_alter_el_eq.
    + rewrite IH, elem_at_alter_el_ne; [done| |done..]. by intros ->.
Qed.

(** ** Mutations that leave a view of every element unchanged *)

Lemma agree_refl {X} (proj : element → X) s : agree proj s s.
Proof. done. Qed.

Lemma agree_trans {X} (proj : element → X) s1 s2 s3 :
  agree proj s1 s2 → agree proj s2 s3 → agree proj s1 s3.
Proof. intros H12 H23 q. by rewrite H23, H12. Qed.

Lemma agree_alter_el {X} (proj : element → X) f p s :
  (∀ e, proj (f e) = proj e) → agree proj s (alter_el f p s).
Proof.
  intros Hf q. rewrite elem_at_alter_el. case_decide; [|by rewrite option_fmap_id].
  destruct (elem_at q s); simpl; [|done]. by rewrite Hf.
Qed.

Lemma agree_each_el {X} (proj : element → X) f set s :
  (∀ e, proj (f e) = proj e) → agree proj s (each_el f set s).
Proof.
  intros Hf. revert s. induction set as [|p set IH]; intros s; [done|].
  rewrite each_el_cons. eapply agree_trans; [|apply IH]. by apply agree_alter_el.
Qed.

Lemma matches_tag_agree t s s' q :
  agree tag s s' → matches_tag t s' q = matches_tag t s q.
Proof.
  intros H. unfold matches_tag. specialize (H q).
  destruct (elem_at q s'), (elem_at q s); simpl in *; [injection H as ->|..]; done.
Qed.

Lemma matches_class_agree c s s' q :
  agree (has_class c) s s' → matches_class c s' q = matches_class c s q.
Proof.
  intros H. unfold matches_class. specialize (H q).
  destruct (elem_at q s'), (elem_at q s); simpl in *; [injection H as ->|..]; done.
Qed.

Lemma is_checked_agree s s' q :
  agree pseudo_checked s s' → is_checked q s' = is_checked q s.
Proof.
  intros H. unfold is_checked. specialize (H q).
  destruct (elem_at q s'), (elem_at q s); simpl in *; [injection H as ->|..]; done.
Qed.

Lemma closest_agree t this s s' :
  agree tag s s' → closest t this s' = closest t this s.
Proof.
  intros H. unfold closest. do 2 f_equal.
  apply list_find_ext. intros q. by rewrite (matches_tag_agree t s s' q H).
Qed.

Lemma select_class_agree c s s' :
  elements s' = elements s → agree (has_class c) s s' →
  select_class c s' = select_class c s.
Proof.
  intros He H. unfold select_class. rewrite He.
  apply list_filter_iff. intros q. by rewrite (matches_class_agree c s s' q H).
Qed.

Lemma select_tag_agree t s s' :
  elements s' = elements s → agree tag s s' → select_tag t s' = select_tag t s.
Proof.
  intros He H. unfold select_tag. rewrite He.
  apply list_filter_iff. intros q. by rewrite (matches_tag_agree t s s' q H).
Qed.

Lemma find_class_agree c set s s' :
  elements s' = elements s → agree (has_class c) s s' →
  find_class c set s' = find_class c set s.
Proof.
  intros He H. unfold find_class. rewrite He.
  apply list_filter_iff. intros q. by rewrite (matches_class_agree c s s' q H).
Qed.

(** ** Ancestors and [closest] *)

Lemma inclusive_ancestors_lookup (p : path) (j : nat) (q : path) :
  inclusive_ancestors p !! j = Some q ↔ j ≤ length p ∧ q = take (length p - j) p.
Proof.
  unfold inclusive_ancestors, ancestors. destruct j as [|j]; simpl.
  - rewrite Nat.sub_0_r, take_ge by done. split; [intros [= ->]|intros [_ ->]]; auto with lia.
  - rewrite list_lookup_fmap, fmap_Some. split.
    + intros (k & Hk & ->). apply reverse_lookup_Some in Hk as [Hk Hj].
      rewrite length_seq in Hk, Hj. apply lookup_seq in Hk as [-> _].
      split; [lia|done].
    + intros [Hj ->]. exists (length p - S j). split; [|done].
      apply reverse_lookup_Some. rewrite length_seq. split; [|lia].
      apply lookup_seq. lia.
Qed.

Lemma elem_of_inclusive_ancestors (q p : path) : q ∈ inclusive_ancestors p ↔ q `prefix_of` p.
Proof.
  rewrite list_elem_of_lookup. split.
  - intros (j & [_ ->]%inclusive_ancestors_lookup). apply prefix_take.
  - intros [k ->]. exists (length k). apply inclusive_ancestors_lookup.
    rewrite length_app. split; [lia|].
    replace (length q + length k - length k) with (length q) by lia.
    by rewrite take_app_length.
Qed.

Lemma elem_of_ancestors (q p : path) : q ∈ ancestors p ↔ is_descendant p q.
Proof.
  unfold is_descendant. rewrite <-elem_of_inclusive_ancestors.
  unfold inclusive_ancestors. rewrite elem_of_cons. split; [|naive_solver].
  intros Hq. split; [by right|]. intros ->.
  apply list_elem_of_fmap in Hq as (k & Hp & Hk).
  apply elem_of_reverse, elem_of_seq in Hk.
  apply (f_equal length) in Hp. rewrite length_take in Hp. lia.
Qed.

Lemma closest_cases t this s :
  closest t this s = [] ∨ ∃ r, closest t this s = [r].
Proof.
  unfold closest. destruct (list_find _ _) as [[i r]|]; simpl; eauto.
Qed.

(** [closest] returns the nearest element, among [this] and its
    ancestors, that has the tag. *)
Lemma closest_Some t this s r :
  closest t this s = [r] ↔
  r `prefix_of` this ∧ matches_tag t s r ∧
  ∀ q, q `prefix_of` this → matches_tag t s q → q `prefix_of` r.
Proof.
  unfold closest. split.
  - destruct (list_find _ _) as [[i r']|] eqn:Hfind; simpl; [|done].
    intros [= ->]. apply list_find_Some in Hfind as (Hi & Hr & Hmin).
    split_and!; [|done|].
    + apply elem_of_inclusive_ancestors, list_elem_of_lookup; eauto.
    + intros q [j Hj]%elem_of_inclusive_ancestors%list_elem_of_lookup Hq.
      destruct (decide (j < i)) as [Hlt|Hge]; [by destruct (Hmin j q)|].
      apply inclusive_ancestors_lookup in Hi as [_ ->].
      apply inclusive_ancestors_lookup in Hj as [_ ->].
      replace (length this - j) with (min (length this - j) (length this - i)) by lia.
      rewrite <-take_take. apply prefix_take.
  - intros (Hr & Ht & Hmax).
    apply elem_of_inclusive_ancestors, list_elem_of_lookup in Hr as [i Hi].
    destruct (list_find _ _) as [[i' r']|] eqn:Hfind; simpl.
    + apply list_find_Some in Hfind as (Hi' & Hr' & Hmin). f_equal.
      assert (r' `prefix_of` r) as Hpre.
      { apply Hmax; [|done]. apply elem_of_inclusive_ancestors, list_elem_of_lookup; eauto. }
      destruct (decide (i < i')) as [Hlt|Hge]; [by destruct (Hmin i r)|].
      apply inclusive_ancestors_lookup in Hi as [? ->].
      apply inclusive_ancestors_lookup in Hi' as [? ->].
      destruct (decide (i = i')) as [->|]; [done|].
      apply prefix_length in Hpre. rewrite !length_take in Hpre. lia.
    + apply list_find_None in Hfind. rewrite Forall_forall in Hfind.
      destruct (Hfind r); [|done]. apply list_elem_of_lookup; eauto.
Qed.

Lemma closest_nil t this s :
  closest t this s = [] ↔ ∀ q, q `prefix_of` this → ¬ matches_tag t s q.
Proof.
  unfold closest. split.
  - destruct (list_find _ _) as [[i r']|] eqn:Hfind; simpl; [done|]. intros _ q Hq.
    apply list_find_None in Hfind. rewrite Forall_forall in Hfind.
    by apply Hfind, elem_of_inclusive_ancestors.
  - intros Hno. destruct (list_find _ _) as [[i r']|] eqn:Hfind; simpl; [|done].
    apply list_find_Some in Hfind as (Hi & Hr & _). destruct (Hno r'); [|done].
    apply elem_of_inclusive_ancestors, list_elem_of_lookup; eauto.
Qed.

Lemma closest_exists t this s r :
  closest t this s = [r] → ∃ e, elem_at r s = Some e ∧ tag e = t.
Proof.
  intros (_ & Ht & _)%closest_Some. unfold matches_tag in Ht.
  destruct (elem_at r s) as [e|]; simpl in Ht; [|done].
  exists e. split; [done|]. by apply bool_decide_unpack in Ht.
Qed.

(** ** Class tokens *)

Lemma has_class_add_class c e : has_class c (add_class c e) = true.
Proof.
  unfold add_class. destruct (has_class c e) eqn:Hc; [done|].
  unfold has_class. simpl. apply bool_decide_eq_true, elem_of_app. right. left.
Qed.

Lemma has_class_remove_class c e : has_class c (remove_class c e) = false.
Proof.
  unfold has_class. simpl. apply bool_decide_eq_false.
  rewrite list_elem_of_filter. naive_solver.
Qed.

Lemma remove_class_idemp c e : remove_class c (remove_class c e) = remove_class c e.
Proof.
  unfold remove_class, set_classes. simpl. f_equal.
  rewrite list_filter_filter. apply list_filter_iff. naive_solver.
Qed.

Lemma add_class_idemp c e : add_class c (add_class c e) = add_class c e.
Proof.
  unfold add_class at 1. by rewrite has_class_add_class.
Qed.

Lemma remove_class_add_class c e : remove_class c (add_class c e) = remove_class c e.
Proof.
  unfold add_class. destruct (has_class c e); [done|].
  unfold remove_class, set_classes. simpl. f_equal.
  rewrite filter_app, filter_cons_False, filter_nil, app_nil_r; [done|]. by intros [].
Qed.

(** ** The two class-synchronising handlers *)

Lemma UpdateRow_sync : UpdateRow = sync_ignore "tr".
Proof. reflexivity. Qed.

Lemma togglesection_sync : togglesection = sync_ignore "table".
Proof. reflexivity. Qed.

Lemma sync_ignore_agree {X} (proj : element → X) t this s :
  (∀ e, proj (add_class "ignore" e) = proj e) →
  (∀ e, proj (remove_class "ignore" e) = proj e) →
  agree proj s (sync_ignore t this s).
Proof.
  intros Hadd Hrem. unfold sync_ignore.
  destruct (is_checked this s); by apply agree_each_el.
Qed.

Lemma pseudo_checked_add_class c e : pseudo_checked (add_class c e) = pseudo_checked e.
Proof. unfold add_class. by destruct (has_class c e). Qed.

Lemma tag_add_class c e : tag (add_class c e) = tag e.
Proof. unfold add_class. by destruct (has_class c e). Qed.

Lemma listeners_add_class c e : listeners (add_class c e) = listeners e.
Proof. unfold add_class. by destruct (has_class c e). Qed.

Lemma checked_add_class c e : checked (add_class c e) = checked e.
Proof. unfold add_class. by destruct (has_class c e). Qed.

Lemma style_add_class c e : style (add_class c e) = style e.
Proof. unfold add_class. by destruct (has_class c e). Qed.

Lemma sync_ignore_elements t this s : elements (sync_ignore t this s) = elements s.
Proof. unfold sync_ignore. destruct (is_checked this s); apply elements_each_el. Qed.

Lemma sync_ignore_window t this s :
  window_listeners (sync_ignore t this s) = window_listeners s.
Proof. unfold sync_ignore. destruct (is_checked this s); apply window_listeners_each_el. Qed.

Lemma sync_ignore_viewport t this s : viewport (sync_ignore t this s) = viewport s.
Proof. unfold sync_ignore. destruct (is_checked this s); apply viewport_each_el. Qed.

Lemma sync_ignore_is_checked t this q s :
  is_checked q (sync_ignore t this s) = is_checked q s.
Proof.
  apply is_checked_agree, sync_ignore_agree; [apply pseudo_checked_add_class|done].
Qed.

Lemma sync_ignore_closest t t' this q s :
  closest t' q (sync_ignore t this s) = closest t' q s.
Proof. apply closest_agree, sync_ignore_agree; [apply tag_add_class|done]. Qed.

(** After the handler ran, the target has the class iff [this] is not
    [:checked]. *)
Lemma sync_ignore_target t this s r :
  closest t this s = [r] →
  matches_class "ignore" (sync_ignore t this s) r = negb (is_checked this s).
Proof.
  intros Hr. destruct (closest_exists _ _ _ _ Hr) as (e & He & _).
  unfold sync_ignore. rewrite Hr. unfold matches_class.
  destruct (is_checked this s); simpl;
    unfold removeClass, addClass; simpl; rewrite elem_at_alter_el_eq, He; simpl.
  - apply has_class_remove_class.
  - apply has_class_add_class.
Qed.

(** Elements other than the target are untouched. *)
Lemma sync_ignore_other t this s q :
  q ∉ closest t this s → elem_at q (sync_ignore t this s) = elem_at q s.
Proof.
  intros Hq. unfold sync_ignore.
  destruct (is_checked this s); by apply elem_at_each_el_notin.
Qed.

Lemma sync_ignore_no_target t this s :
  closest t this s = [] → sync_ignore t this s = s.
Proof.
  intros Hr. unfold sync_ignore. rewrite Hr. destruct s. by destruct (is_checked _ _).
Qed.

Lemma alter_el_idemp f r s :
  (∀ e, f (f e) = f e) → alter_el f r (alter_el f r s) = alter_el f r s.
Proof.
  intros Hf. unfold alter_el, set_document. simpl.
  rewrite modify_modify. f_equal. apply modify_ext. intros e. apply Hf.
Qed.

Lemma sync_ignore_idemp t this s :
  sync_ignore t this (sync_ignore t this s) = sync_ignore t this s.
Proof.
  unfold sync_ignore at 1. rewrite sync_ignore_is_checked, sync_ignore_closest.
  unfold sync_ignore.
  destruct (closest_cases t this s) as [->|[r ->]]; destruct (is_checked this s);
    try done; simpl.
  - apply alter_el_idemp, remove_class_idemp.
  - apply alter_el_idemp, add_class_idemp.
Qed.

(** ** What no handler changes *)

Lemma benign_refl s : benign s s.
Proof. by split. Qed.

Lemma benign_trans s1 s2 s3 : benign s1 s2 → benign s2 s3 → benign s1 s3.
Proof.
  intros [He1 Hw1 Hv1 Hs1] [He2 Hw2 Hv2 Hs2].
  split; [congruence..|by eapply agree_trans].
Qed.

Lemma agree_weaken {X Y} (proj : element → X) (proj' : element → Y) s s' :
  (∀ e e', proj e = proj e' → proj' e = proj' e') →
  agree proj s s' → agree proj' s s'.
Proof.
  intros Hw H q. specialize (H q).
  destruct (elem_at q s'), (elem_at q s); simpl in *; try done.
  f_equal. apply Hw. by injection H.
Qed.

Lemma has_class_shape c e e' :
  c ≠ "ignore" → shape e = shape e' → has_class c e = has_class c e'.
Proof.
  intros Hc [= _ Hcs]. unfold has_class. apply bool_decide_ext.
  trans (c ∈ filter (λ c, c ≠ "ignore") (classes e)).
  - rewrite list_elem_of_filter. naive_solver.
  - rewrite Hcs, list_elem_of_filter. naive_solver.
Qed.

Lemma skeleton_shape e e' : skeleton e = skeleton e' → shape e = shape e'.
Proof. unfold shape. by intros [= -> -> _ _ _]. Qed.

Lemma has_class_skeleton c e e' :
  c ≠ "ignore" → skeleton e = skeleton e' → has_class c e = has_class c e'.
Proof. intros Hc Hsk. by apply has_class_shape, skeleton_shape. Qed.

Lemma agree_is_Some {X} (proj : element → X) s s' q :
  agree proj s s' → is_Some (elem_at q s') ↔ is_Some (elem_at q s).
Proof. intros H. specialize (H q). rewrite <-!(fmap_is_Some proj). by rewrite H. Qed.

Lemma benign_shape s s' : benign s s' → agree shape s s'.
Proof. intros [_ _ _ H]. revert H. apply agree_weaken, skeleton_shape. Qed.

Lemma benign_tag s s' : benign s s' → agree tag s s'.
Proof. intros [_ _ _ H]. revert H. apply agree_weaken. by intros e e' [= ? _ _ _ _]. Qed.

Lemma benign_listeners s s' : benign s s' → agree listeners s s'.
Proof. intros [_ _ _ H]. revert H. apply agree_weaken. by intros e e' [= _ _ _ _ ?]. Qed.

Lemma benign_class c s s' : c ≠ "ignore" → benign s s' → agree (has_class c) s s'.
Proof.
  intros Hc [_ _ _ H]. revert H. apply agree_weaken. intros e e'. by apply has_class_skeleton.
Qed.

Lemma skeleton_add_class_ignore e : skeleton (add_class "ignore" e) = skeleton e.
Proof.
  unfold add_class. destruct (has_class "ignore" e); [done|].
  unfold skeleton. simpl. rewrite filter_app, filter_cons_False, filter_nil, app_nil_r; [done|].
  by intros [].
Qed.

Lemma skeleton_remove_class_ignore e : skeleton (remove_class "ignore" e) = skeleton e.
Proof.
  unfold skeleton. simpl. rewrite list_filter_filter. do 4 f_equal.
  apply list_filter_iff. naive_solver.
Qed.

Lemma benign_each_el f set s :
  (∀ e, skeleton (f e) = skeleton e) → benign s (each_el f set s).
Proof.
  intros Hf. split.
  - apply elements_each_el.
  - apply window_listeners_each_el.
  - apply viewport_each_el.
  - by apply agree_each_el.
Qed.

Lemma sync_ignore_benign t this s : benign s (sync_ignore t this s).
Proof.
  unfold sync_ignore. destruct (is_checked this s); apply benign_each_el.
  - apply skeleton_remove_class_ignore.
  - apply skeleton_add_class_ignore.
Qed.

Lemma togglechildren_B_benign this s : benign s (togglechildren_B this s).
Proof. by apply benign_each_el. Qed.

(** ** Sequencing *)

Lemma seq_run_cons {A} (f : A → page → option page) a l s :
  seq_run f (a :: l) s = f a s ≫= seq_run f l.
Proof. reflexivity. Qed.

Lemma seq_run_rel {A} (R : relation page) (f : A → page → option page) l s s' :
  Reflexive R → Transitive R →
  (∀ a s s', a ∈ l → f a s = Some s' → R s s') →
  seq_run f l s = Some s' → R s s'.
Proof.
  intros ? ? Hf. revert s. induction l as [|a l IH]; intros s; simpl.
  - by intros [= ->].
  - destruct (f a s) as [s1|] eqn:Hs1; simpl; [|done]. intros Hrun.
    trans s1; [apply (Hf a); [left|done]|].
    apply IH; [|done]. intros a' ? ? Ha'. apply Hf. by right.
Qed.

(** ** Dispatch preserves the skeleton *)

Lemma update_benign self s : benign s (update self s).
Proof.
  unfold update. eapply benign_trans; by apply benign_each_el.
Qed.

Lemma dispatch_window_rel (R : relation page) r ev s s' :
  Reflexive R → Transitive R →
  (∀ h t s s', r h t s = Some s' → R s s') →
  dispatch_window r ev s = Some s' → R s s'.
Proof. intros ? ? Hr. apply seq_run_rel; eauto. Qed.

Lemma dispatch_rel (R : relation page) r ev t s s' :
  Reflexive R → Transitive R →
  (∀ h t s s', r h t s = Some s' → R s s') →
  dispatch r ev t s = Some s' → R s s'.
Proof.
  intros ? ? Hr. unfold dispatch.
  destruct (seq_run _ (inclusive_ancestors t) s) as [s1|] eqn:Hs1; simpl; [|done].
  intros Hw. trans s1.
  - revert Hs1. apply seq_run_rel; [done..|]. intros cur s2 s3 _.
    apply seq_run_rel; eauto.
  - revert Hw. by apply dispatch_window_rel.
Qed.

Lemma trigger_rel (R : relation page) r ev set s s' :
  Reflexive R → Transitive R →
  (∀ h t s s', r h t s = Some s' → R s s') →
  trigger r ev set s = Some s' → R s s'.
Proof.
  intros ? ? Hr. apply seq_run_rel; [done..|]. intros t s1 s2 _. by apply dispatch_rel.
Qed.

(** Whatever the nesting, a handler run leaves the skeleton of the page
    alone: same tree, same tags, same classes but ["ignore"], same
    listeners. *)
Lemma run_benign fuel h this s s' : run fuel h this s = Some s' → benign s s'.
Proof.
  revert h this s s'. induction fuel as [|fuel IH]; intros h this s s'; simpl; [done|].
  destruct h as [|[]| |self], this as [|this]; try done; intros Hrun; simplify_eq.
  - rewrite UpdateRow_sync. apply sync_ignore_benign.
  - unfold togglechildren_A in Hrun. eapply benign_trans; [apply togglechildren_B_benign|].
    eapply (trigger_rel benign); [exact benign_refl|exact benign_trans|exact IH|exact Hrun].
  - apply togglechildren_B_benign.
  - rewrite togglesection_sync. apply sync_ignore_benign.
  - apply update_benign.
  - apply update_benign.
Qed.

(** ** The DOM contract and the installed handlers *)

Lemma all_elements_spec P s :
  all_elements P s ↔ ∀ p e, elem_at p s = Some e → P p e.
Proof.
  unfold all_elements. rewrite Forall_forall. split.
  - intros H p e He. specialize (H p). rewrite He in H. apply H.
    apply elem_at_elements. by rewrite He.
  - intros H p _. destruct (elem_at p s) as [e|] eqn:He; simpl; [by apply H|done].
Qed.

Lemma lookup_node_app p q n :
  lookup_node (p ++ q) n = lookup_node p n ≫= lookup_node q.
Proof.
  revert n. induction p as [|i p IH]; intros n; simpl; [done|].
  destruct (node_kids n !! i); simpl; [apply IH|done].
Qed.

(** An element with a descendant is not a leaf. *)
Lemma descendant_not_leaf c q s :
  is_descendant c q → is_Some (elem_at c s) → ¬ is_leaf q s.
Proof.
  intros [[k ->] Hne]. destruct k as [|i k]; [by rewrite app_nil_r in Hne|].
  unfold is_leaf, elem_at. rewrite !fmap_is_Some, !lookup_node_app.
  destruct (lookup_node q (document s)) as [n|]; simpl; [|by intros [? ?]].
  destruct (node_kids n !! i) as [k'|] eqn:Hi; [|by intros [? ?]]. intros _.
  destruct (node_kids n) as [|k0 ks]; [done|]. simpl. done.
Qed.

Lemma agree_Some {X} (proj : element → X) s s' q e' :
  agree proj s s' → elem_at q s' = Some e' →
  ∃ e, elem_at q s = Some e ∧ proj e' = proj e.
Proof.
  intros H He'. specialize (H q). rewrite He' in H.
  destruct (elem_at q s) as [e|]; simpl in H; [|done]. exists e. split; [done|].
  by injection H.
Qed.

Lemma roles_shape e e' : shape e = shape e' → roles e = roles e'.
Proof.
  intros Hsh. unfold roles, markers. rewrite !filter_cons, !filter_nil.
  by rewrite !(has_class_shape _ e e').
Qed.

Lemma has_class_roles m e : m ∈ markers → has_class m e = bool_decide (m ∈ roles e).
Proof.
  intros Hm. unfold roles. symmetry. destruct (has_class m e) eqn:Hc.
  - apply bool_decide_eq_true, list_elem_of_filter. by rewrite Hc.
  - apply bool_decide_eq_false. rewrite list_elem_of_filter, Hc. naive_solver.
Qed.

Lemma expected_skeleton v p e e' : skeleton e = skeleton e' → expected v p e = expected v p e'.
Proof.
  intros Hsk. unfold expected, class_listeners, textarea_listeners.
  rewrite !(has_class_skeleton _ e e') by done. by injection Hsk as ->.
Qed.

Lemma expected_roles v p e :
  expected v p e =
  (if bool_decide ("togglevisible" ∈ roles e) then [(Change, fn_UpdateRow)] else [])
  ++ (if bool_decide ("togglechildren" ∈ roles e)
      then [(Change, fn_togglechildren (cascades v))] else [])
  ++ (if cascades v && bool_decide ("togglesection" ∈ roles e)
      then [(Change, fn_togglesection)] else [])
  ++ (if bool_decide (tag e = "textarea")
      then [(Change, fn_update p); (KeyUp, fn_update p); (KeyDown, fn_update p)] else []).
Proof.
  unfold expected, class_listeners, textarea_listeners.
  rewrite <-!app_assoc. by rewrite !has_class_roles by (unfold markers; set_solver).
Qed.

Lemma contract_shape s s' : agree shape s s' → contract s → contract s'.
Proof.
  intros Hsh. unfold contract. rewrite !all_elements_spec. intros Hc p e' He'.
  destruct (agree_Some _ _ _ _ _ Hsh He') as (e & He & Hsk).
  destruct (Hc p e He) as (Hleaf & Hinput & Hone).
  assert (tag e' = tag e) as Htag by (by injection Hsk).
  unfold el_contract. rewrite (roles_shape e' e), Htag by done. split_and!; [|done..].
  intros Ht. specialize (Hleaf Ht). unfold is_leaf in *.
  apply eq_None_not_Some. rewrite (agree_is_Some _ _ _ _ Hsh). by rewrite Hleaf.
Qed.

Lemma contract_benign s s' : benign s s' → contract s → contract s'.
Proof. intros Hb. by apply contract_shape, benign_shape. Qed.

Lemma installed_benign v s s' : benign s s' → installed v s → installed v s'.
Proof.
  intros Hb [Hel Hw]. split.
  - rewrite all_elements_spec in *. intros p e' He'.
    destruct (agree_Some _ _ _ _ _ (benign_skeleton _ _ Hb) He') as (e & He & Hsk).
    rewrite (expected_skeleton v p e' e) by done. rewrite <-(Hel p e He).
    by injection Hsk.
  - rewrite (benign_window _ _ Hb), Hw. f_equal. symmetry.
    apply select_tag_agree; [apply Hb|by apply benign_tag].
Qed.

(** Elements that have children carry no listeners. *)
Lemma inner_quiet v s q e :
  contract s → installed v s → elem_at q s = Some e → ¬ is_leaf q s → listeners e = [].
Proof.
  unfold contract. intros Hc [Hel _] He Hq. rewrite all_elements_spec in Hc, Hel.
  rewrite (Hel q e He). destruct (Hc q e He) as (Hleaf & Hinput & _).
  rewrite expected_roles.
  assert (roles e = []) as ->.
  { destruct (roles e) eqn:Hr; [done|]. destruct Hq. apply Hleaf. left. by apply Hinput. }
  rewrite (bool_decide_eq_false_2 (tag e = "textarea")) by (intros ?; apply Hq, Hleaf; by right).
  by destruct (cascades v).
Qed.

(** An element selected by a marker class plays that role alone, is an
    [input] and has no children. *)
Lemma contract_select m s c :
  contract s → m ∈ markers → c ∈ select_class m s →
  ∃ e, elem_at c s = Some e ∧ roles e = [m] ∧ tag e = "input" ∧ is_leaf c s.
Proof.
  unfold contract, select_class. rewrite all_elements_spec.
  intros Hc Hm [Hcl _]%list_elem_of_filter. unfold matches_class in Hcl.
  destruct (elem_at c s) as [e|] eqn:He; simpl in Hcl; [|done].
  exists e. destruct (Hc c e He) as (Hleaf & Hinput & Hone).
  rewrite has_class_roles in Hcl by done. apply bool_decide_unpack in Hcl.
  assert (roles e = [m]) as Hr.
  { destruct (roles e) as [|m' [|??]]; simpl in Hone; [by apply elem_of_nil in Hcl| |lia].
    by apply list_elem_of_singleton in Hcl as ->. }
  assert (tag e = "input") as Ht by (apply Hinput; by rewrite Hr).
  split_and!; auto.
Qed.

(** ** Dispatch on a page that meets the contract *)

Lemma seq_run_nothing {A} (f : A → page → option page) l s :
  (∀ a, a ∈ l → f a s = Some s) → seq_run f l s = Some s.
Proof.
  induction l as [|a l IH]; intros Hf; simpl; [done|].
  rewrite Hf by left. simpl. apply IH. intros a' Ha'. apply Hf. by right.
Qed.

Lemma seq_run_total_inv {A} (I : page → Prop) (f : A → page → option page)
    (g : A → page → page) l s :
  I s → (∀ a s, a ∈ l → I s → f a s = Some (g a s) ∧ I (g a s)) →
  seq_run f l s = Some (foldl (λ s a, g a s) s l) ∧ I (foldl (λ s a, g a s) s l).
Proof.
  revert s. induction l as [|a l IH]; intros s Hs Hf; simpl; [done|].
  destruct (Hf a s) as [-> Hs']; [by left|done|]. simpl.
  apply IH; [done|]. intros a' s' Ha'. apply Hf. by right.
Qed.

Lemma listeners_at_agree ev q s s' :
  agree listeners s s' → listeners_at ev q s' = listeners_at ev q s.
Proof.
  intros H. unfold listeners_at. specialize (H q).
  destruct (elem_at q s'), (elem_at q s); simpl in *; [injection H as ->|..]; done.
Qed.

(** When no ancestor of the target and not the window listens for the
    event, only the handlers bound to the target itself run. *)
Lemma dispatch_quiet (r : handler → target → page → option page) ev c s :
  (∀ h t s s', r h t s = Some s' → benign s s') →
  (∀ q, q ∈ ancestors c → listeners_at ev q s = []) →
  handlers_for ev (window_listeners s) = [] →
  dispatch r ev c s = seq_run (λ h, r h (Elem c)) (listeners_at ev c s) s.
Proof.
  intros Hr Hanc Hwin. unfold dispatch, inclusive_ancestors. simpl.
  destruct (seq_run _ (listeners_at ev c s) s) as [s1|] eqn:Hs1; simpl; [|done].
  assert (benign s s1) as Hb.
  { revert Hs1. apply seq_run_rel; [exact benign_refl|exact benign_trans|]. eauto. }
  rewrite seq_run_nothing; simpl.
  - unfold dispatch_window. by rewrite (benign_window _ _ Hb), Hwin.
  - intros q Hq. rewrite (listeners_at_agree ev q s s1) by by apply benign_listeners.
    by rewrite Hanc.
Qed.

Lemma handlers_for_window ev (l : list path) :
  ev ≠ Resize →
  handlers_for ev ((λ t, (Resize, fn_update t)) <$> l) = [].
Proof.
  intros Hev. unfold handlers_for. induction l as [|t l IH]; [done|].
  rewrite fmap_cons, filter_cons_False; [done|]. simpl. congruence.
Qed.

Lemma handlers_for_resize (l : list path) :
  handlers_for Resize ((λ t, (Resize, fn_update t)) <$> l) = fn_update <$> l.
Proof.
  unfold handlers_for. induction l as [|t l IH]; [done|].
  rewrite fmap_cons, filter_cons_True by done. by rewrite !fmap_cons, IH.
Qed.

(** On a page that meets the contract, with the listeners of either copy
    installed, bubbling is inert: an event other than [Resize] runs the
    handlers its target is expected to carry, and nothing else. *)
Lemma dispatch_installed v fuel ev c s e :
  contract s → installed v s → elem_at c s = Some e → ev ≠ Resize →
  dispatch (run fuel) ev c s
  = seq_run (λ h, run fuel h (Elem c)) (handlers_for ev (expected v c e)) s.
Proof.
  intros Hc Hi He Hev.
  rewrite dispatch_quiet.
  - unfold listeners_at. rewrite He. simpl. destruct Hi as [Hel _].
    rewrite all_elements_spec in Hel. by rewrite (Hel c e He).
  - intros h t s1 s2. apply run_benign.
  - intros q Hq. unfold listeners_at.
    destruct (elem_at q s) as [eq|] eqn:Heq; simpl; [|done].
    rewrite (inner_quiet v s q eq); [done..|].
    apply (descendant_not_leaf c); [by apply elem_of_ancestors|by rewrite He].
  - destruct Hi as [_ ->]. by apply handlers_for_window.
Qed.

Lemma find_class_subseteq c set s q :
  q ∈ find_class c set s → q ∈ select_class c s.
Proof.
  unfold find_class, select_class. rewrite !list_elem_of_filter. naive_solver.
Qed.

Lemma select_tag_spec t s q :
  q ∈ select_tag t s ↔ ∃ e, elem_at q s = Some e ∧ tag e = t.
Proof.
  unfold select_tag. rewrite list_elem_of_filter, elem_at_elements. unfold matches_tag.
  destruct (elem_at q s) as [e|]; simpl.
  - rewrite bool_decide_spec. naive_solver.
  - split; [by intros [[] _]|by intros (? & ? & _)].
Qed.

Lemma select_class_spec c s q :
  q ∈ select_class c s ↔ ∃ e, elem_at q s = Some e ∧ has_class c e.
Proof.
  unfold select_class. rewrite list_elem_of_filter, elem_at_elements. unfold matches_class.
  destruct (elem_at q s) as [e|]; simpl.
  - naive_solver.
  - split; [by intros [[] _]|by intros (? & ? & _)].
Qed.

(** Change at a row checkbox runs [UpdateRow] on it (both copies). *)
Lemma dispatch_togglevisible v fuel c s :
  contract s → installed v s → c ∈ select_class "togglevisible" s →
  dispatch (run (S fuel)) Change c s = Some (UpdateRow c s).
Proof.
  intros Hc Hi Hsel.
  destruct (contract_select "togglevisible" s c) as (e & He & Hr & Ht & _);
    [done|unfold markers; set_solver|done|].
  rewrite (dispatch_installed v _ _ _ _ e) by done.
  rewrite expected_roles, Hr, Ht. by destruct v.
Qed.

(** Change at a section checkbox runs the section handler (first copy). *)
Lemma dispatch_togglesection fuel c s :
  contract s → installed First s → c ∈ select_class "togglesection" s →
  dispatch (run (S fuel)) Change c s = Some (togglesection c s).
Proof.
  intros Hc Hi Hsel.
  destruct (contract_select "togglesection" s c) as (e & He & Hr & Ht & _);
    [done|unfold markers; set_solver|done|].
  rewrite (dispatch_installed First _ _ _ _ e) by done.
  by rewrite expected_roles, Hr, Ht.
Qed.

(** Change at a children toggle, second copy: the property is written and
    nothing more happens. *)
Lemma dispatch_togglechildren_B fuel t s :
  contract s → installed Second s → t ∈ select_class "togglechildren" s →
  dispatch (run (S fuel)) Change t s = Some (togglechildren_B t s).
Proof.
  intros Hc Hi Hsel.
  destruct (contract_select "togglechildren" s t) as (e & He & Hr & Ht & _);
    [done|unfold markers; set_solver|done|].
  rewrite (dispatch_installed Second _ _ _ _ e) by done.
  by rewrite expected_roles, Hr, Ht.
Qed.

(** Change at a children toggle, first copy: the property is written, then
    [UpdateRow] runs on every element of the set, in order. *)
Lemma dispatch_togglechildren_A fuel t s :
  contract s → installed First s → t ∈ select_class "togglechildren" s →
  dispatch (run (S (S fuel))) Change t s
  = Some (each UpdateRow (find_class "togglevisible" (closest "table" t s) s)
            (togglechildren_B t s)).
Proof.
  intros Hc Hi Hsel.
  destruct (contract_select "togglechildren" s t) as (e & He & Hr & Ht & _);
    [done|unfold markers; set_solver|done|].
  rewrite (dispatch_installed First _ _ _ _ e) by done.
  rewrite expected_roles, Hr, Ht.
  change (seq_run _ _ s) with
    (togglechildren_A (trigger (run (S fuel)) Change) t s ≫= Some).
  unfold togglechildren_A, trigger.
  set (set := find_class "togglevisible" (closest "table" t s) s).
  assert (benign s (togglechildren_B t s)) as Hb by apply togglechildren_B_benign.
  destruct (seq_run_total_inv (benign s) (dispatch (run (S fuel)) Change) UpdateRow
              set (togglechildren_B t s)) as [Hrun _]; [done| |].
  - intros q s' Hq Hb'. split.
    + apply (dispatch_togglevisible First);
        [by apply (contract_benign s)|by apply (installed_benign _ s)|].
      rewrite (select_class_agree _ s s'); [|apply Hb'|by apply benign_class].
      by apply find_class_subseteq in Hq.
    + eapply benign_trans; [done|]. rewrite UpdateRow_sync. apply sync_ignore_benign.
  - unfold togglechildren_B in Hrun. fold set in Hrun. rewrite Hrun. done.
Qed.

(** Change, key-up and key-down at a text area run its [update]. *)
Lemma dispatch_textarea v fuel ev t s :
  contract s → installed v s → t ∈ select_tag "textarea" s → ev ≠ Resize →
  dispatch (run (S fuel)) ev t s = Some (update t s).
Proof.
  intros Hc Hi (e & He & Ht)%select_tag_spec Hev.
  rewrite (dispatch_installed v _ _ _ _ e) by done.
  unfold contract in Hc. rewrite all_elements_spec in Hc.
  destruct (Hc t e He) as (_ & Hinput & _).
  assert (roles e = []) as Hr.
  { destruct (roles e); [done|]. rewrite Hinput in Ht; done. }
  rewrite expected_roles, Hr, Ht.
  destruct ev, v; done.
Qed.

(** A window resize runs [update] for every text area, in document order. *)
Lemma dispatch_resize v fuel s :
  installed v s →
  dispatch_window (run (S fuel)) Resize s
  = Some (each update (select_tag "textarea" s) s).
Proof.
  intros [_ Hw]. unfold dispatch_window. rewrite Hw, handlers_for_resize. clear Hw.
  generalize (select_tag "textarea" s) as l. intros l. revert s.
  induction l as [|t l IH]; intros s; [done|]. rewrite fmap_cons. simpl. apply IH.
Qed.

(** ** Loops that synchronise a class *)

Lemma semantic_tag s s' : agree semantic s s' → agree tag s s'.
Proof. apply agree_weaken. by intros e e' [= ? _ _ _]. Qed.

Lemma semantic_class c s s' : agree semantic s s' → agree (has_class c) s s'.
Proof. apply agree_weaken. intros e e' [= _ Hc _ _]. unfold has_class. by rewrite Hc. Qed.

Lemma semantic_checked s s' : agree semantic s s' → agree pseudo_checked s s'.
Proof.
  apply agree_weaken. intros e e' [= Ht _ Hc Hs]. unfold pseudo_checked. by rewrite Ht, Hc, Hs.
Qed.

Lemma sync_ignore_tagged_other t this s q :
  matches_tag t s q = false → elem_at q (sync_ignore t this s) = elem_at q s.
Proof.
  intros Hq. apply sync_ignore_other.
  destruct (closest_cases t this s) as [->|[r Hr]]; [apply not_elem_of_nil|].
  rewrite Hr. intros ->%list_elem_of_singleton.
  apply closest_Some in Hr as (_ & Hr & _). by rewrite Hq in Hr.
Qed.

(** A loop that runs the class synchronisation for each element of [l],
    possibly after a step [g] that the handlers cannot observe.  If the
    elements of [l] whose target is [r] agree on [:checked], the class on
    [r] reflects it when the loop is over. *)
Lemma each_sync_ignore t (g : path → page → page) l s r v :
  (∀ this s, agree semantic s (g this s)) →
  (∀ c, c ∈ l → closest t c s = [r] → is_checked c s = v) →
  (∃ c, c ∈ l ∧ closest t c s = [r]) ∨ matches_class "ignore" s r = negb v →
  matches_class "ignore" (each (λ this s, sync_ignore t this (g this s)) l s) r = negb v.
Proof.
  intros Hg. revert s. induction l as [|a l IH]; intros s Hagree Hr; simpl.
  { destruct Hr as [(c & []%elem_of_nil & _)|Hr]. done. }
  set (s1 := g a s). set (s2 := sync_ignore t a s1).
  assert (∀ c, closest t c s2 = closest t c s) as Hclosest.
  { intros c. unfold s2. rewrite sync_ignore_closest.
    apply closest_agree, semantic_tag, Hg. }
  assert (∀ c, is_checked c s2 = is_checked c s) as Hchecked.
  { intros c. unfold s2. rewrite sync_ignore_is_checked.
    apply is_checked_agree, semantic_checked, Hg. }
  apply IH.
  - intros c Hc. rewrite Hclosest, Hchecked. apply Hagree. by right.
  - destruct (decide (closest t a s = [r])) as [Ha|Ha].
    + right. unfold s2. rewrite sync_ignore_target.
      * f_equal. unfold s1. rewrite (is_checked_agree s (g a s)) by apply semantic_checked, Hg.
        apply Hagree; [left|done].
      * unfold s1. rewrite (closest_agree t a s (g a s)) by apply semantic_tag, Hg. done.
    + assert (matches_class "ignore" s2 r = matches_class "ignore" s r) as Hsame.
      { unfold s2, matches_class. rewrite sync_ignore_other.
        - apply (matches_class_agree "ignore" s s1 r), semantic_class, Hg.
        - unfold s1. rewrite (closest_agree t a s (g a s)) by apply semantic_tag, Hg.
          destruct (closest_cases t a s) as [->|[r' Hr']]; [apply not_elem_of_nil|].
          rewrite Hr'. intros ->%list_elem_of_singleton. done. }
      destruct Hr as [(c & Hc & Hcr)|Hr].
      * left. exists c. rewrite Hclosest. split; [|done].
        apply elem_of_cons in Hc as [->|Hc]; done.
      * right. by rewrite Hsame.
Qed.

(** In general the class on [r] reflects the element of [l] with target
    [r] that the loop visits last. *)
Lemma each_sync_ignore_last t (g : path → page → page) l s r c :
  (∀ this s, agree semantic s (g this s)) →
  last (filter (λ c', closest t c' s = [r]) l) = Some c →
  matches_class "ignore" (each (λ this s, sync_ignore t this (g this s)) l s) r
  = negb (is_checked c s).
Proof.
  intros Hg. revert s. induction l as [|a l IH]; intros s Hlast; [done|]. simpl.
  set (s2 := sync_ignore t a (g a s)).
  assert (∀ c, closest t c s2 = closest t c s) as Hclosest.
  { intros c'. unfold s2. rewrite sync_ignore_closest.
    apply closest_agree, semantic_tag, Hg. }
  assert (∀ c, is_checked c s2 = is_checked c s) as Hchecked.
  { intros c'. unfold s2. rewrite sync_ignore_is_checked.
    apply is_checked_agree, semantic_checked, Hg. }
  assert (filter (λ c', closest t c' s2 = [r]) l = filter (λ c', closest t c' s = [r]) l)
    as Hfilter.
  { apply list_filter_iff. intros c'. by rewrite Hclosest. }
  destruct (decide (closest t a s = [r])) as [Ha|Ha].
  - rewrite filter_cons_True, last_cons in Hlast by done.
    destruct (last (filter (λ c', closest t c' s = [r]) l)) as [c'|] eqn:Hl.
    + injection Hlast as ->. rewrite <-(Hchecked c). apply IH. by rewrite Hfilter.
    + injection Hlast as ->. apply last_None in Hl.
      apply (each_sync_ignore t g l s2 r (is_checked c s)); [done| |].
      * intros c' Hc' Hr'. rewrite Hclosest in Hr'.
        by destruct (filter_nil_not_elem_of _ _ c' Hl).
      * right. unfold s2. rewrite sync_ignore_target.
        -- f_equal. apply is_checked_agree, semantic_checked, Hg.
        -- by rewrite (closest_agree t c s (g c s)) by apply semantic_tag, Hg.
  - rewrite filter_cons_False in Hlast by done.
    rewrite <-(Hchecked c). apply IH. by rewrite Hfilter.
Qed.

(** ** The ready callbacks *)

Lemma undisturbed_refl s : undisturbed s s.
Proof. by split. Qed.

Lemma undisturbed_trans s1 s2 s3 : undisturbed s1 s2 → undisturbed s2 s3 → undisturbed s1 s3.
Proof.
  intros [He1 Hv1 Hs1] [He2 Hv2 Hs2]. split; [congruence..|by eapply agree_trans].
Qed.

Lemma undisturbed_shape s s' : undisturbed s s' → agree shape s s'.
Proof. intros [_ _ H]. revert H. apply agree_weaken. unfold shape. by intros e e' [= -> -> _ _ _]. Qed.

Lemma undisturbed_tag s s' : undisturbed s s' → agree tag s s'.
Proof. intros [_ _ H]. revert H. apply agree_weaken. by intros e e' [= -> _ _ _ _]. Qed.

Lemma undisturbed_checked s s' : undisturbed s s' → agree pseudo_checked s s'.
Proof.
  intros [_ _ H]. revert H. apply agree_weaken. intros e e' [= Ht _ Hc Hs _].
  unfold pseudo_checked. by rewrite Ht, Hc, Hs.
Qed.

Lemma undisturbed_class c s s' : c ≠ "ignore" → undisturbed s s' → agree (has_class c) s s'.
Proof.
  intros Hc Hu. apply undisturbed_shape in Hu. revert Hu. apply agree_weaken.
  intros e e'. by apply has_class_shape.
Qed.

Lemma undisturbed_select_class c s s' :
  c ≠ "ignore" → undisturbed s s' → select_class c s' = select_class c s.
Proof. intros Hc Hu. apply select_class_agree; [apply Hu|by apply undisturbed_class]. Qed.

Lemma undisturbed_select_tag t s s' : undisturbed s s' → select_tag t s' = select_tag t s.
Proof. intros Hu. apply select_tag_agree; [apply Hu|by apply undisturbed_tag]. Qed.

Lemma undisturbed_each_el f set s :
  (∀ e, stable (f e) = stable e) → undisturbed s (each_el f set s).
Proof.
  intros Hf. split; [apply elements_each_el|apply viewport_each_el|by apply agree_each_el].
Qed.

Lemma stable_add_class_ignore e : stable (add_class "ignore" e) = stable e.
Proof.
  unfold add_class. destruct (has_class "ignore" e); [done|].
  unfold stable. simpl. rewrite filter_app, filter_cons_False, filter_nil, app_nil_r; [done|].
  by intros [].
Qed.

Lemma stable_remove_class_ignore e : stable (remove_class "ignore" e) = stable e.
Proof.
  unfold stable. simpl. rewrite list_filter_filter. do 4 f_equal.
  apply list_filter_iff. naive_solver.
Qed.

Lemma sync_ignore_undisturbed t this s : undisturbed s (sync_ignore t this s).
Proof.
  unfold sync_ignore. destruct (is_checked this s); apply undisturbed_each_el.
  - apply stable_remove_class_ignore.
  - apply stable_add_class_ignore.
Qed.

Lemma update_undisturbed self s : undisturbed s (update self s).
Proof. unfold update. eapply undisturbed_trans; by apply undisturbed_each_el. Qed.

Lemma bind_undisturbed ev h set s : undisturbed s (bind ev h set s).
Proof. by apply undisturbed_each_el. Qed.

Lemma bind_togglevisible_undisturbed this s : undisturbed s (bind_togglevisible this s).
Proof.
  unfold bind_togglevisible. eapply undisturbed_trans; [apply bind_undisturbed|].
  rewrite UpdateRow_sync. apply sync_ignore_undisturbed.
Qed.

Lemma bind_textarea_undisturbed this s : undisturbed s (bind_textarea this s).
Proof.
  unfold bind_textarea.
  eapply undisturbed_trans; [|apply update_undisturbed].
  eapply undisturbed_trans; [apply bind_undisturbed|].
  eapply undisturbed_trans; [apply bind_undisturbed|].
  eapply undisturbed_trans; [apply (bind_undisturbed KeyDown)|]. by split.
Qed.

Lemma each_rel (R : relation page) (fn : path → page → page) l s :
  Reflexive R → Transitive R → (∀ this s, R s (fn this s)) → R s (each fn l s).
Proof.
  intros ? ? Hfn. revert s. induction l as [|a l IH]; intros s; simpl; [done|].
  trans (fn a s); [apply Hfn|apply IH].
Qed.

Lemma each_undisturbed fn l s :
  (∀ this s, undisturbed s (fn this s)) → undisturbed s (each fn l s).
Proof. apply each_rel; [exact undisturbed_refl|exact undisturbed_trans]. Qed.

(** Listeners accumulate: a binding loop over distinct elements appends
    to each of them once. *)
Lemma each_appends (fn : path → page → page) (extra : path → list (event * handler)) l s q :
  (∀ this s q, listeners <$> elem_at q (fn this s)
     = (λ ls, ls ++ if decide (q = this) then extra this else []) <$> (listeners <$> elem_at q s)) →
  NoDup l →
  listeners <$> elem_at q (each fn l s)
  = (λ ls, ls ++ if decide (q ∈ l) then extra q else []) <$> (listeners <$> elem_at q s).
Proof.
  intros Hfn. revert s. induction l as [|a l IH]; intros s Hnd; simpl.
  - destruct (elem_at q s); simpl; [|done]. by rewrite app_nil_r.
  - apply NoDup_cons in Hnd as [Ha Hnd]. rewrite IH, Hfn by done.
    destruct (elem_at q s) as [e|]; simpl; [|done]. f_equal.
    destruct (decide (q = a)) as [->|Hqa].
    + rewrite decide_False, decide_True by (done || left). by rewrite app_nil_r.
    + rewrite app_nil_r. repeat case_decide; set_solver.
Qed.

Lemma bind_one_listeners ev h this s q :
  listeners <$> elem_at q (bind ev h [this] s)
  = (λ ls, ls ++ if decide (q = this) then [(ev, h)] else []) <$> (listeners <$> elem_at q s).
Proof.
  unfold bind. simpl. rewrite elem_at_alter_el.
  destruct (decide (this = q)) as [->|Hne];
    [rewrite decide_True by done|rewrite decide_False by congruence];
    destruct (elem_at q s); simpl; by rewrite ?app_nil_r.
Qed.

Lemma bind_listeners ev h set s q :
  NoDup set →
  listeners <$> elem_at q (bind ev h set s)
  = (λ ls, ls ++ if decide (q ∈ set) then [(ev, h)] else []) <$> (listeners <$> elem_at q s).
Proof.
  intros Hnd.
  apply (each_appends (λ this s, bind ev h [this] s) (λ _, [(ev, h)])); [|done].
  intros. apply bind_one_listeners.
Qed.

Lemma bind_togglevisible_listeners this s q :
  listeners <$> elem_at q (bind_togglevisible this s)
  = (λ ls, ls ++ if decide (q = this) then [(Change, fn_UpdateRow)] else [])
      <$> (listeners <$> elem_at q s).
Proof.
  unfold bind_togglevisible. rewrite <-bind_one_listeners.
  rewrite UpdateRow_sync. apply sync_ignore_agree; [apply listeners_add_class|done].
Qed.

Lemma bind_textarea_listeners this s q :
  listeners <$> elem_at q (bind_textarea this s)
  = (λ ls, ls ++ if decide (q = this)
                 then [(Change, fn_update this); (KeyUp, fn_update this);
                       (KeyDown, fn_update this)] else [])
      <$> (listeners <$> elem_at q s).
Proof.
  unfold bind_textarea.
  trans (listeners <$> elem_at q
           (bind KeyDown (fn_update this) [this]
              (bind KeyUp (fn_update this) [this] (bind Change (fn_update this) [this] s)))).
  - unfold update. etrans; [by apply agree_each_el|]. etrans; [by apply agree_each_el|]. done.
  - rewrite !bind_one_listeners. destruct (elem_at q s) as [e|]; simpl; [|done].
    f_equal. case_decide; [|by rewrite !app_nil_r]. by rewrite <-!app_assoc.
Qed.

Lemma bind_textarea_window this s :
  window_listeners (bind_textarea this s)
  = window_listeners s ++ [(Resize, fn_update this)].
Proof.
  unfold bind_textarea, update, css, bind. by rewrite !window_listeners_each_el.
Qed.

Lemma each_bind_textarea_window l s :
  window_listeners (each bind_textarea l s)
  = window_listeners s ++ ((λ t, (Resize, fn_update t)) <$> l).
Proof.
  revert s. induction l as [|t l IH]; intros s; simpl; [by rewrite app_nil_r|].
  by rewrite IH, bind_textarea_window, <-app_assoc.
Qed.

Lemma each_bind_togglevisible_window l s :
  window_listeners (each bind_togglevisible l s) = window_listeners s.
Proof.
  revert s. induction l as [|t l IH]; intros s; simpl; [done|]. rewrite IH.
  unfold bind_togglevisible, UpdateRow, bind, removeClass, addClass.
  destruct (is_checked _ _); by rewrite !window_listeners_each_el.
Qed.

Lemma NoDup_select_class c s : NoDup (select_class c s).
Proof. apply NoDup_filter, NoDup_paths. Qed.

Lemma NoDup_select_tag t s : NoDup (select_tag t s).
Proof. apply NoDup_filter, NoDup_paths. Qed.

Lemma expected_shape v p e e' : shape e = shape e' → expected v p e = expected v p e'.
Proof.
  intros Hsh. unfold expected, class_listeners, textarea_listeners.
  rewrite !(has_class_shape _ e e') by done. by injection Hsh as -> _.
Qed.

Lemma class_listeners_shape v e e' : shape e = shape e' → class_listeners v e = class_listeners v e'.
Proof.
  intros Hsh. unfold class_listeners. by rewrite !(has_class_shape _ e e') by done.
Qed.

Lemma elem_of_select_class c s q e :
  elem_at q s = Some e → q ∈ select_class c s ↔ has_class c e.
Proof. intros He. rewrite select_class_spec, He. naive_solver. Qed.

Lemma elem_of_select_tag t s q e :
  elem_at q s = Some e → q ∈ select_tag t s ↔ tag e = t.
Proof. intros He. rewrite select_tag_spec, He. naive_solver. Qed.

Lemma decide_select_class {X} c s q e (x y : X) :
  elem_at q s = Some e →
  (if decide (q ∈ select_class c s) then x else y) = (if has_class c e then x else y).
Proof.
  intros He. destruct (has_class c e) eqn:Hc.
  - rewrite decide_True; [done|]. apply (elem_of_select_class _ _ _ e); [done|].
    by apply Is_true_true.
  - rewrite decide_False; [done|]. rewrite (elem_of_select_class _ _ _ e) by done.
    by apply Is_true_false.
Qed.

Lemma decide_select_tag {X} t s q e (x y : X) :
  elem_at q s = Some e →
  (if decide (q ∈ select_tag t s) then x else y) = (if bool_decide (tag e = t) then x else y).
Proof.
  intros He. case_bool_decide as Ht.
  - rewrite decide_True; [done|]. by apply (elem_of_select_tag _ _ _ e).
  - rewrite decide_False; [done|]. by rewrite (elem_of_select_tag _ _ _ e).
Qed.

Lemma bind_semantic ev h set s : agree semantic s (bind ev h set s).
Proof. by apply agree_each_el. Qed.

Lemma bind_textarea_agree {X} (proj : element → X) this s :
  (∀ ev h e, proj (add_listener ev h e) = proj e) →
  (∀ k v e, proj (set_style k v e) = proj e) →
  agree proj s (bind_textarea this s).
Proof.
  intros Hl Hs. unfold bind_textarea, update.
  eapply agree_trans; [|by apply agree_each_el].
  eapply agree_trans; [|by apply agree_each_el].
  eapply agree_trans; [apply agree_each_el, Hl|].
  eapply agree_trans; [apply agree_each_el, Hl|].
  apply (agree_each_el proj (add_listener KeyDown (fn_update this))), Hl.
Qed.

Lemma each_agree {X} (proj : element → X) fn l s :
  (∀ this s, agree proj s (fn this s)) → agree proj s (each fn l s).
Proof. apply each_rel; [exact (agree_refl proj)|exact (agree_trans proj)]. Qed.

(** *** The common part: the row check-boxes *)

Lemma rows_bound_undisturbed s : undisturbed s (rows_bound s).
Proof. apply each_undisturbed, bind_togglevisible_undisturbed. Qed.

Lemma rows_bound_listeners s q :
  listeners <$> elem_at q (rows_bound s)
  = (λ e, listeners e ++ if has_class "togglevisible" e then [(Change, fn_UpdateRow)] else [])
      <$> elem_at q s.
Proof.
  unfold rows_bound.
  rewrite (each_appends _ (λ _, [(Change, fn_UpdateRow)]));
    [|apply bind_togglevisible_listeners|apply NoDup_select_class].
  destruct (elem_at q s) as [e|] eqn:He; simpl; [|done].
  by rewrite (decide_select_class _ _ _ e).
Qed.

Lemma rows_bound_window s : window_listeners (rows_bound s) = window_listeners s.
Proof. apply each_bind_togglevisible_window. Qed.

Lemma sharing_last t m c s r :
  c ∈ select_class m s → closest t c s = [r] →
  last (filter (λ c', closest t c' s = [r]) (select_class m s))
  = Some (last_sharing t m c s).
Proof.
  intros Hc Hr. unfold last_sharing, sharing. rewrite Hr.
  destruct (last _) as [l|] eqn:Hl; [done|].
  apply last_None in Hl. by destruct (filter_nil_not_elem_of _ _ c Hl).
Qed.

(** After the first loop, a row reflects the last of its check-boxes. *)
Lemma rows_bound_last s c r :
  c ∈ select_class "togglevisible" s → closest "tr" c s = [r] →
  matches_class "ignore" (rows_bound s) r
  = negb (is_checked (last_sharing "tr" "togglevisible" c s) s).
Proof.
  intros Hc Hr.
  apply (each_sync_ignore_last "tr" (λ this s, bind Change fn_UpdateRow [this] s)).
  - intros. apply bind_semantic.
  - by apply sharing_last.
Qed.

(** After the first loop, a row whose checkboxes agree reflects them. *)
Lemma rows_bound_rows s c r :
  c ∈ select_class "togglevisible" s → closest "tr" c s = [r] →
  (∀ c', c' ∈ select_class "togglevisible" s → closest "tr" c' s = [r] →
         is_checked c' s = is_checked c s) →
  matches_class "ignore" (rows_bound s) r = negb (is_checked c s).
Proof.
  intros Hc Hr Hagree.
  apply (each_sync_ignore "tr" (λ this s, bind Change fn_UpdateRow [this] s)).
  - intros. apply bind_semantic.
  - done.
  - left. eauto.
Qed.

(** *** The second copy *)

Lemma ready_B_undisturbed s : undisturbed s (ready_B s).
Proof.
  unfold ready_B.
  eapply undisturbed_trans; [apply rows_bound_undisturbed|].
  eapply undisturbed_trans; [apply bind_undisturbed|].
  apply each_undisturbed, bind_textarea_undisturbed.
Qed.

Lemma ready_B_listeners s q :
  listeners <$> elem_at q (ready_B s)
  = (λ e, listeners e ++ expected Second q e) <$> elem_at q s.
Proof.
  unfold ready_B. fold (rows_bound s).
  set (s1 := rows_bound s).
  set (s2 := bind Change (fn_togglechildren false) (select_class "togglechildren" s1) s1).
  assert (undisturbed s s1) as H1 by apply rows_bound_undisturbed.
  assert (undisturbed s s2) as H2.
  { eapply undisturbed_trans; [done|apply bind_undisturbed]. }
  rewrite (each_appends _ (λ t, [(Change, fn_update t); (KeyUp, fn_update t);
                                  (KeyDown, fn_update t)]));
    [|apply bind_textarea_listeners|apply NoDup_select_tag].
  assert (listeners <$> elem_at q s2
          = (λ ls, ls ++ if decide (q ∈ select_class "togglechildren" s1)
                         then [(Change, fn_togglechildren false)] else [])
              <$> (listeners <$> elem_at q s1)) as ->
    by apply bind_listeners, NoDup_select_class.
  pose proof (rows_bound_listeners s q) as Hs1. fold s1 in Hs1. rewrite Hs1.
  rewrite (undisturbed_select_tag _ s s2), (undisturbed_select_class _ s s1) by done.
  destruct (elem_at q s) as [e|] eqn:He; simpl; [|done]. f_equal.
  rewrite (decide_select_class _ _ _ e), (decide_select_tag _ _ _ e) by done.
  unfold expected, class_listeners, textarea_listeners. simpl. by rewrite <-!app_assoc.
Qed.

Lemma ready_B_window s :
  window_listeners (ready_B s)
  = window_listeners s ++ ((λ t, (Resize, fn_update t)) <$> select_tag "textarea" s).
Proof.
  unfold ready_B. fold (rows_bound s). rewrite each_bind_textarea_window. unfold bind.
  rewrite window_listeners_each_el, rows_bound_window. do 2 f_equal.
  apply undisturbed_select_tag.
  eapply undisturbed_trans; [apply rows_bound_undisturbed|apply bind_undisturbed].
Qed.

(** The second copy's ready callback installs exactly the expected
    listeners. *)
Lemma ready_B_installed s : fresh s → installed Second (ready_B s).
Proof.
  intros [Hel Hw]. rewrite all_elements_spec in Hel. split.
  - apply all_elements_spec. intros q e' He'.
    pose proof (ready_B_listeners s q) as Hl. rewrite He' in Hl.
    destruct (agree_Some _ _ _ _ _ (undisturbed_shape _ _ (ready_B_undisturbed s)) He')
      as (e & He & Hsh).
    rewrite He in Hl. simpl in Hl. injection Hl as ->.
    by rewrite (Hel q e He), (expected_shape _ _ e' e).
  - rewrite ready_B_window, Hw. simpl. f_equal. symmetry.
    apply undisturbed_select_tag, ready_B_undisturbed.
Qed.

Lemma ready_B_last s c r :
  c ∈ select_class "togglevisible" s → closest "tr" c s = [r] →
  matches_class "ignore" (ready_B s) r
  = negb (is_checked (last_sharing "tr" "togglevisible" c s) s).
Proof.
  intros Hc Hr. rewrite <-(rows_bound_last s c r) by done.
  unfold ready_B. fold (rows_bound s). apply matches_class_agree.
  apply (agree_trans _ _ (bind Change (fn_togglechildren false)
                            (select_class "togglechildren" (rows_bound s)) (rows_bound s))).
  - by apply agree_each_el.
  - apply each_agree. intros. by apply bind_textarea_agree.
Qed.

(** *** The first copy *)

Lemma classes_bound_undisturbed s : undisturbed s (classes_bound s).
Proof.
  unfold classes_bound.
  eapply undisturbed_trans; [apply rows_bound_undisturbed|].
  eapply undisturbed_trans; apply bind_undisturbed.
Qed.

Lemma classes_bound_listeners s q :
  listeners <$> elem_at q (classes_bound s)
  = (λ e, listeners e ++ class_listeners First e) <$> elem_at q s.
Proof.
  unfold classes_bound.
  set (s1 := rows_bound s).
  set (s2 := bind Change (fn_togglechildren true) (select_class "togglechildren" s1) s1).
  assert (undisturbed s s1) as H1 by apply rows_bound_undisturbed.
  assert (undisturbed s s2) as H2.
  { eapply undisturbed_trans; [done|apply bind_undisturbed]. }
  rewrite bind_listeners by apply NoDup_select_class.
  assert (listeners <$> elem_at q s2
          = (λ ls, ls ++ if decide (q ∈ select_class "togglechildren" s1)
                         then [(Change, fn_togglechildren true)] else [])
              <$> (listeners <$> elem_at q s1)) as ->
    by apply bind_listeners, NoDup_select_class.
  pose proof (rows_bound_listeners s q) as Hs1. fold s1 in Hs1. rewrite Hs1.
  rewrite (undisturbed_select_class _ s s2), (undisturbed_select_class _ s s1) by done.
  destruct (elem_at q s) as [e|] eqn:He; simpl; [|done]. f_equal.
  rewrite !(decide_select_class _ _ _ e) by done.
  unfold class_listeners. simpl. by rewrite <-!app_assoc.
Qed.

Lemma classes_bound_window s : window_listeners (classes_bound s) = window_listeners s.
Proof.
  unfold classes_bound, bind. by rewrite !window_listeners_each_el, rows_bound_window.
Qed.

Lemma classes_bound_armed s : fresh s → armed (classes_bound s).
Proof.
  intros [Hel Hw]. rewrite all_elements_spec in Hel. split.
  - apply all_elements_spec. intros q e' He'.
    pose proof (classes_bound_listeners s q) as Hl. rewrite He' in Hl.
    destruct (agree_Some _ _ _ _ _ (undisturbed_shape _ _ (classes_bound_undisturbed s)) He')
      as (e & He & Hsh).
    rewrite He in Hl. simpl in Hl. injection Hl as ->.
    by rewrite (Hel q e He), (class_listeners_shape _ e' e).
  - by rewrite classes_bound_window.
Qed.

Lemma armed_benign s s' : benign s s' → armed s → armed s'.
Proof.
  intros Hb [Hel Hw]. split; [|by rewrite (benign_window _ _ Hb)].
  rewrite all_elements_spec in *. intros p e' He'.
  destruct (agree_Some _ _ _ _ _ (benign_skeleton _ _ Hb) He') as (e & He & Hsk).
  rewrite (class_listeners_shape _ e' e) by by apply skeleton_shape.
  rewrite <-(Hel p e He). by injection Hsk.
Qed.

Lemma class_listeners_roles v e :
  class_listeners v e =
  (if bool_decide ("togglevisible" ∈ roles e) then [(Change, fn_UpdateRow)] else [])
  ++ (if bool_decide ("togglechildren" ∈ roles e)
      then [(Change, fn_togglechildren (cascades v))] else [])
  ++ (if cascades v && bool_decide ("togglesection" ∈ roles e)
      then [(Change, fn_togglesection)] else []).
Proof.
  unfold class_listeners. by rewrite !has_class_roles by (unfold markers; set_solver).
Qed.

Lemma dispatch_togglesection_armed fuel c s :
  contract s → armed s → c ∈ select_class "togglesection" s →
  dispatch (run (S fuel)) Change c s = Some (togglesection c s).
Proof.
  intros Hc [Hel Hw] Hsel. rewrite all_elements_spec in Hel.
  destruct (contract_select "togglesection" s c) as (e & He & Hr & Ht & _);
    [done|unfold markers; set_solver|done|].
  rewrite dispatch_quiet.
  - unfold listeners_at. rewrite He. simpl.
    by rewrite (Hel c e He), class_listeners_roles, Hr.
  - intros h t s1 s2. apply run_benign.
  - intros q Hq. unfold listeners_at.
    destruct (elem_at q s) as [eq|] eqn:Heq; simpl; [|done].
    rewrite (Hel q eq Heq), class_listeners_roles.
    unfold contract in Hc. rewrite all_elements_spec in Hc.
    destruct (Hc q eq Heq) as (Hleaf & Hinput & _).
    assert (roles eq = []) as ->; [|done].
    destruct (roles eq) eqn:Hreq; [done|].
    destruct (descendant_not_leaf c q s); [by apply elem_of_ancestors|by rewrite He|].
    apply Hleaf. left. by apply Hinput.
  - by rewrite Hw.
Qed.

Lemma trigger_sections fuel s :
  contract s → armed s →
  trigger (run (S fuel)) Change (select_class "togglesection" s) s
  = Some (each togglesection (select_class "togglesection" s) s).
Proof.
  intros Hc Ha. unfold trigger.
  destruct (seq_run_total_inv (benign s) (dispatch (run (S fuel)) Change) togglesection
              (select_class "togglesection" s) s) as [Hrun _]; [apply benign_refl| |done].
  intros q s' Hq Hb. split.
  - apply dispatch_togglesection_armed;
      [by apply (contract_benign s)|by apply (armed_benign s)|].
    by rewrite (select_class_agree _ s s'); [|apply Hb|apply benign_class].
  - eapply benign_trans; [done|]. rewrite togglesection_sync. apply sync_ignore_benign.
Qed.

(** On a fresh page that meets the contract, the first copy's ready
    callback terminates with any positive budget. *)
Lemma ready_A_eq fuel s :
  fresh s → contract s → ready_A (S fuel) s = Some (ready_A_result s).
Proof.
  intros Hf Hc. unfold ready_A. fold (rows_bound s).
  change (bind Change fn_togglesection _ _) with (classes_bound s).
  rewrite trigger_sections.
  - done.
  - revert Hc. apply contract_shape, undisturbed_shape, classes_bound_undisturbed.
  - by apply classes_bound_armed.
Qed.

Lemma each_togglesection_undisturbed l s : undisturbed s (each togglesection l s).
Proof.
  apply each_undisturbed. intros. rewrite togglesection_sync. apply sync_ignore_undisturbed.
Qed.

Lemma ready_A_undisturbed s : undisturbed s (ready_A_result s).
Proof.
  unfold ready_A_result.
  eapply undisturbed_trans; [apply classes_bound_undisturbed|].
  eapply undisturbed_trans; [apply each_togglesection_undisturbed|].
  apply each_undisturbed, bind_textarea_undisturbed.
Qed.

Lemma each_togglesection_agree {X} (proj : element → X) l s :
  (∀ e, proj (add_class "ignore" e) = proj e) →
  (∀ e, proj (remove_class "ignore" e) = proj e) →
  agree proj s (each togglesection l s).
Proof.
  intros Ha Hr. apply each_agree. intros. rewrite togglesection_sync. by apply sync_ignore_agree.
Qed.

Lemma each_togglesection_window l s :
  window_listeners (each togglesection l s) = window_listeners s.
Proof.
  revert s. induction l as [|t l IH]; intros s; simpl; [done|]. rewrite IH.
  rewrite togglesection_sync. apply sync_ignore_window.
Qed.

Lemma ready_A_installed s : fresh s → installed First (ready_A_result s).
Proof.
  intros Hf. pose proof (classes_bound_armed s Hf) as [Hel Hw].
  rewrite all_elements_spec in Hel. unfold ready_A_result.
  set (s3 := classes_bound s) in *.
  set (s4 := each togglesection (select_class "togglesection" s3) s3).
  assert (undisturbed s3 s4) as H34 by apply each_togglesection_undisturbed.
  split.
  - apply all_elements_spec. intros q e' He'.
    pose proof (each_appends bind_textarea
      (λ t, [(Change, fn_update t); (KeyUp, fn_update t); (KeyDown, fn_update t)])
      (select_tag "textarea" s4) s4 q (λ this s q, bind_textarea_listeners this s q)
      (NoDup_select_tag _ _)) as Hl.
    rewrite He' in Hl.
    assert (undisturbed s4 (each bind_textarea (select_tag "textarea" s4) s4)) as H45
      by apply each_undisturbed, bind_textarea_undisturbed.
    destruct (agree_Some _ _ _ _ _ (undisturbed_shape _ _ H45) He') as (e4 & He4 & Hsh4).
    pose proof (each_togglesection_agree listeners (select_class "togglesection" s3) s3
                  (listeners_add_class "ignore") (λ _, eq_refl) q) as Hl34.
    fold s4 in Hl34. rewrite He4 in Hl34.
    destruct (agree_Some _ _ _ _ _ (undisturbed_shape _ _ H34) He4) as (e3 & He3 & Hsh3).
    rewrite He3 in Hl34. cbn [fmap option_fmap option_map] in Hl34.
    assert (listeners e4 = listeners e3) as Hl34' by congruence. clear Hl34.
    rewrite He4 in Hl. cbn [fmap option_fmap option_map] in Hl.
    assert (listeners e' = listeners e4
              ++ (if decide (q ∈ select_tag "textarea" s4)
                  then [(Change, fn_update q); (KeyUp, fn_update q); (KeyDown, fn_update q)]
                  else [])) as -> by congruence.
    clear Hl. rename Hl34' into Hl34.
    rewrite (decide_select_tag _ _ _ e4) by done.
    rewrite Hl34, (Hel q e3 He3). unfold expected, textarea_listeners.
    rewrite (class_listeners_shape _ e' e3) by congruence.
    by injection Hsh4 as -> _.
  - rewrite each_bind_textarea_window. unfold s4 at 1.
    rewrite each_togglesection_window, Hw, app_nil_l. f_equal. symmetry.
    apply undisturbed_select_tag, each_undisturbed, bind_textarea_undisturbed.
Qed.

Lemma each_togglesection_other l s q :
  matches_tag "table" s q = false → elem_at q (each togglesection l s) = elem_at q s.
Proof.
  revert s. induction l as [|a l IH]; intros s Hq; simpl; [done|].
  assert (elem_at q (togglesection a s) = elem_at q s) as Ha
    by (rewrite togglesection_sync; by apply sync_ignore_tagged_other).
  rewrite IH, Ha; [done|]. unfold matches_tag. by rewrite Ha.
Qed.

Lemma tagged_tr_not_table s q : matches_tag "tr" s q → matches_tag "table" s q = false.
Proof.
  unfold matches_tag. destruct (elem_at q s) as [e|]; simpl; [|done].
  intros ->%bool_decide_unpack. done.
Qed.

Lemma ready_A_rows s c r :
  c ∈ select_class "togglevisible" s → closest "tr" c s = [r] →
  (∀ c', c' ∈ select_class "togglevisible" s → closest "tr" c' s = [r] →
         is_checked c' s = is_checked c s) →
  matches_class "ignore" (ready_A_result s) r = negb (is_checked c s).
Proof.
  intros Hc Hr Hagree. rewrite <-(rows_bound_rows s c r) by done.
  unfold ready_A_result.
  set (s3 := classes_bound s).
  set (s4 := each togglesection (select_class "togglesection" s3) s3).
  trans (matches_class "ignore" s4 r).
  { apply matches_class_agree, each_agree. intros. by apply bind_textarea_agree. }
  trans (matches_class "ignore" s3 r).
  { unfold matches_class, s4. rewrite each_togglesection_other; [done|].
    apply tagged_tr_not_table.
    rewrite (matches_tag_agree "tr" s s3) by apply undisturbed_tag, classes_bound_undisturbed.
    by apply closest_Some in Hr as (_ & ? & _). }
  apply matches_class_agree. unfold s3, classes_bound.
  eapply agree_trans; by apply agree_each_el.
Qed.

Lemma ready_A_tables s c r :
  c ∈ select_class "togglesection" s → closest "table" c s = [r] →
  (∀ c', c' ∈ select_class "togglesection" s → closest "table" c' s = [r] →
         is_checked c' s = is_checked c s) →
  matches_class "ignore" (ready_A_result s) r = negb (is_checked c s).
Proof.
  intros Hc Hr Hagree. unfold ready_A_result.
  set (s3 := classes_bound s).
  set (s4 := each togglesection (select_class "togglesection" s3) s3).
  assert (undisturbed s s3) as H3 by apply classes_bound_undisturbed.
  trans (matches_class "ignore" s4 r).
  { apply matches_class_agree, each_agree. intros. by apply bind_textarea_agree. }
  apply (each_sync_ignore "table" (λ _ s, s)).
  - intros. apply agree_refl.
  - intros c'. rewrite (undisturbed_select_class _ s s3) by done.
    rewrite (closest_agree _ _ s s3) by by apply undisturbed_tag.
    rewrite !(is_checked_agree s s3) by by apply undisturbed_checked. apply Hagree.
  - left. exists c. rewrite (undisturbed_select_class _ s s3) by done.
    by rewrite (closest_agree _ _ s s3) by by apply undisturbed_tag.
Qed.

Lemma ready_A_rows_last s c r :
  c ∈ select_class "togglevisible" s → closest "tr" c s = [r] →
  matches_class "ignore" (ready_A_result s) r
  = negb (is_checked (last_sharing "tr" "togglevisible" c s) s).
Proof.
  intros Hc Hr. rewrite <-(rows_bound_last s c r) by done.
  unfold ready_A_result.
  set (s3 := classes_bound s).
  set (s4 := each togglesection (select_class "togglesection" s3) s3).
  trans (matches_class "ignore" s4 r).
  { apply matches_class_agree, each_agree. intros. by apply bind_textarea_agree. }
  trans (matches_class "ignore" s3 r).
  { unfold matches_class, s4. rewrite each_togglesection_other; [done|].
    apply tagged_tr_not_table.
    rewrite (matches_tag_agree "tr" s s3) by apply undisturbed_tag, classes_bound_undisturbed.
    by apply closest_Some in Hr as (_ & ? & _). }
  apply matches_class_agree. unfold s3, classes_bound.
  eapply agree_trans; by apply agree_each_el.
Qed.

Lemma ready_A_tables_last s c r :
  c ∈ select_class "togglesection" s → closest "table" c s = [r] →
  matches_class "ignore" (ready_A_result s) r
  = negb (is_checked (last_sharing "table" "togglesection" c s) s).
Proof.
  intros Hc Hr. unfold ready_A_result.
  set (s3 := classes_bound s).
  set (s4 := each togglesection (select_class "togglesection" s3) s3).
  assert (undisturbed s s3) as H3 by apply classes_bound_undisturbed.
  trans (matches_class "ignore" s4 r).
  { apply matches_class_agree, each_agree. intros. by apply bind_textarea_agree. }
  rewrite <-(is_checked_agree s s3) by by apply undisturbed_checked.
  apply (each_sync_ignore_last "table" (λ _ s, s)).
  - intros. apply agree_refl.
  - rewrite (undisturbed_select_class _ s s3) by done.
    rewrite <-(sharing_last "table" "togglesection" c s r) by done.
    f_equal. apply list_filter_iff. intros c'.
    by rewrite (closest_agree _ _ s s3) by by apply undisturbed_tag.
Qed.

(** * The properties of the specification *)

(** ** Row visibility *)

Lemma in_sync_undisturbed t c s s' r :
  undisturbed s s' → closest t c s' = [r] →
  closest t c s = [r] ∧ is_checked c s' = is_checked c s.
Proof.
  intros Hu Hr. rewrite (closest_agree _ _ s s') in Hr by by apply undisturbed_tag.
  split; [done|]. by apply is_checked_agree, undisturbed_checked.
Qed.

(** Where the target of [c] reflects the element visited last, [c] is in
    sync exactly when it has that element's checked state (or no target). *)
Lemma in_sync_last t m c s s' :
  undisturbed s s' →
  (∀ r, closest t c s = [r] →
        matches_class "ignore" s' r = negb (is_checked (last_sharing t m c s) s)) →
  in_sync t c s'
  ↔ closest t c s = [] ∨ is_checked c s = is_checked (last_sharing t m c s) s.
Proof.
  intros Hu Hrow. split.
  - intros Hsync. destruct (closest_cases t c s) as [Hr|[r Hr]]; [by left|right].
    specialize (Hsync r). rewrite (closest_agree t c s s') in Hsync by by apply undisturbed_tag.
    rewrite (is_checked_agree s s') in Hsync by by apply undisturbed_checked.
    specialize (Hsync Hr). rewrite (Hrow r Hr) in Hsync.
    by destruct (is_checked c s), (is_checked _ s).
  - intros Hc r Hr. apply (in_sync_undisturbed _ _ s) in Hr as [Hr ->]; [|done].
    destruct Hc as [Hc| ->]; [congruence|by apply Hrow].
Qed.

Lemma sync_ignore_in_sync t this s : in_sync t this (sync_ignore t this s).
Proof.
  intros r. rewrite sync_ignore_closest, sync_ignore_is_checked. apply sync_ignore_target.
Qed.

(** C1.  Row visibility, as the code has it.  Whenever [UpdateRow] has
    run for an element, its closest row carries ["ignore"] iff the element
    is not checked.  This is the state (a) after each call of the handler,
    on any page; (d) after every change event at a row check-box, on a
    page that meets the DOM contract and has the listeners of either copy
    installed.  After the ready callback of either copy the row follows
    the row check-box the loop visited last: (b, c) a row check-box is
    then in sync with its row exactly when it has no row or has the
    checked state of the last row check-box, in document order, with the
    same closest row, in particular when it is that last one itself (the
    first copy dispatches events during initialisation and is taken on a
    page without listeners that meets the DOM contract). *)
Theorem C1_row_visibility_sync :
  (∀ this s, row_in_sync this (UpdateRow this s))
  ∧ (∀ s c, c ∈ select_class "togglevisible" s →
            (row_in_sync c (ready_B s)
             ↔ closest "tr" c s = []
               ∨ is_checked c s
                 = is_checked (last_sharing "tr" "togglevisible" c s) s))
  ∧ (∀ fuel s c, fresh s → contract s →
            c ∈ select_class "togglevisible" s →
            ∃ s', ready_A (S fuel) s = Some s'
                  ∧ (row_in_sync c s'
                     ↔ closest "tr" c s = []
                       ∨ is_checked c s
                         = is_checked (last_sharing "tr" "togglevisible" c s) s))
  ∧ (∀ v fuel s c, contract s → installed v s →
            c ∈ select_class "togglevisible" s →
            ∃ s', dispatch (run (S fuel)) Change c s = Some s' ∧ row_in_sync c s').
Proof.
  split_and!.
  - intros this s. rewrite UpdateRow_sync. apply sync_ignore_in_sync.
  - intros s c Hc. apply in_sync_last; [apply ready_B_undisturbed|].
    intros r Hr. by apply ready_B_last.
  - intros fuel s c Hf Hct Hc. exists (ready_A_result s).
    split; [by apply ready_A_eq|].
    apply in_sync_last; [apply ready_A_undisturbed|].
    intros r Hr. by apply ready_A_rows_last.
  - intros v fuel s c Hct Hi Hc. exists (UpdateRow c s).
    split; [by apply (dispatch_togglevisible v)|].
    rewrite UpdateRow_sync. apply sync_ignore_in_sync.
Qed.

(** C7.  Idempotence of the row synchronisation: running [UpdateRow] a
    second time changes nothing, and neither does a second change event
    at the same row check-box (same checked state). *)
Theorem C7_row_sync_idempotent :
  (∀ this s, UpdateRow this (UpdateRow this s) = UpdateRow this s)
  ∧ (∀ v fuel s c, contract s → installed v s →
            c ∈ select_class "togglevisible" s →
            ∃ s1, dispatch (run (S fuel)) Change c s = Some s1
                  ∧ dispatch (run (S fuel)) Change c s1 = Some s1).
Proof.
  split.
  - intros this s. rewrite UpdateRow_sync. apply sync_ignore_idemp.
  - intros v fuel s c Hct Hi Hc. exists (UpdateRow c s).
    split; [by apply (dispatch_togglevisible v)|].
    assert (benign s (UpdateRow c s)) as Hb
      by (rewrite UpdateRow_sync; apply sync_ignore_benign).
    rewrite (dispatch_togglevisible v).
    + rewrite UpdateRow_sync. by rewrite sync_ignore_idemp.
    + by apply (contract_benign s).
    + by apply (installed_benign v s).
    + by rewrite (select_class_agree _ s); [|apply Hb|apply benign_class].
Qed.

(** C8.  The row synchronisation cannot fail, and without an enclosing
    row it does nothing: the handler always returns; when neither [this]
    nor any ancestor of it is a [tr], the page it returns is the page it
    was given. *)
Theorem C8_no_row_no_op this s :
  (∀ fuel, is_Some (run (S fuel) fn_UpdateRow (Elem this) s))
  ∧ (Forall (λ q, ¬ matches_tag "tr" s q) (inclusive_ancestors this) →
     UpdateRow this s = s
     ∧ ∀ fuel, run (S fuel) fn_UpdateRow (Elem this) s = Some s).
Proof.
  split; [by eauto|]. intros Hno.
  assert (closest "tr" this s = []) as Hnil.
  { apply closest_nil. intros q Hq. rewrite Forall_forall in Hno.
    by apply Hno, elem_of_inclusive_ancestors. }
  clear Hno. rename Hnil into Hno.
  assert (UpdateRow this s = s) as Hs.
  { rewrite UpdateRow_sync. by apply sync_ignore_no_target. }
  split; [done|]. intros fuel. simpl. by rewrite Hs.
Qed.

(** C9.  Frame of the row synchronisation: [UpdateRow] returns a page
    with the same tree, window listeners and viewport; every element
    other than the closest row of [this] is the same element; and the
    closest row differs at most in the presence of the ["ignore"] token
    among its classes.  In particular every [checked] property and every
    inline style is unchanged. *)
Theorem C9_UpdateRow_frame this s :
  elements (UpdateRow this s) = elements s
  ∧ window_listeners (UpdateRow this s) = window_listeners s
  ∧ viewport (UpdateRow this s) = viewport s
  ∧ (∀ q, q ∉ closest "tr" this s → elem_at q (UpdateRow this s) = elem_at q s)
  ∧ (∀ q, remove_class "ignore" <$> elem_at q (UpdateRow this s)
          = remove_class "ignore" <$> elem_at q s)
  ∧ agree checked s (UpdateRow this s)
  ∧ agree style s (UpdateRow this s).
Proof.
  rewrite UpdateRow_sync. split_and!.
  - apply sync_ignore_elements.
  - apply sync_ignore_window.
  - apply sync_ignore_viewport.
  - intros q. apply sync_ignore_other.
  - apply (sync_ignore_agree (remove_class "ignore")).
    + apply remove_class_add_class.
    + apply remove_class_idemp.
  - apply sync_ignore_agree; [apply checked_add_class|done].
  - apply sync_ignore_agree; [apply style_add_class|done].
Qed.

(** ** The children toggle *)

Lemma find_class_spec m set s c :
  c ∈ find_class m set s ↔
  (∃ e, elem_at c s = Some e ∧ has_class m e) ∧ ∃ T, T ∈ set ∧ is_descendant c T.
Proof.
  unfold find_class. rewrite list_elem_of_filter, Exists_exists, elem_at_elements.
  unfold matches_class. destruct (elem_at c s) as [e|]; simpl.
  - naive_solver.
  - split; [by intros [[[] _] _]|by intros [(? & ? & _) _]].
Qed.

Lemma children_of_benign t s s' : benign s s' → children_of t s' = children_of t s.
Proof.
  intros Hb. unfold children_of.
  rewrite (closest_agree _ _ s s') by by apply benign_tag.
  apply find_class_agree; [apply Hb|by apply benign_class].
Qed.

Lemma togglechildren_B_in t s c :
  c ∈ children_of t s →
  elem_at c (togglechildren_B t s) = set_checked (is_checked t s) <$> elem_at c s.
Proof. intros Hc. by apply elem_at_each_el_idemp. Qed.

Lemma togglechildren_B_out t s c :
  c ∉ children_of t s → elem_at c (togglechildren_B t s) = elem_at c s.
Proof. intros Hc. by apply elem_at_each_el_notin. Qed.

Lemma pseudo_checked_set_self e : pseudo_checked (set_checked (pseudo_checked e) e) = pseudo_checked e.
Proof.
  unfold pseudo_checked. simpl.
  destruct (bool_decide (tag e = "input")) eqn:Hi, (bool_decide (tag e = "option")) eqn:Ho;
    simpl; try done.
  - apply bool_decide_eq_true in Hi, Ho. congruence.
  - by rewrite orb_false_r.
Qed.

(** Writing the toggle's own state to the set does not change the
    toggle's state, even when the toggle is in the set. *)
Lemma togglechildren_B_this t s :
  is_checked t (togglechildren_B t s) = is_checked t s.
Proof.
  unfold is_checked at 1. destruct (decide (t ∈ children_of t s)) as [Hin|Hout].
  - rewrite togglechildren_B_in by done. unfold is_checked.
    destruct (elem_at t s) as [e|]; simpl; [|done]. apply pseudo_checked_set_self.
  - by rewrite togglechildren_B_out.
Qed.

Lemma children_of_exists t s c :
  c ∈ children_of t s → ∃ e, elem_at c s = Some e ∧ has_class "togglevisible" e.
Proof. by intros [? _]%find_class_spec. Qed.

Lemma togglechildren_B_checked t s c :
  c ∈ children_of t s →
  checked <$> elem_at c (togglechildren_B t s) = Some (is_checked t (togglechildren_B t s)).
Proof.
  intros Hc. rewrite togglechildren_B_this, togglechildren_B_in by done.
  destruct (children_of_exists t s c Hc) as (e & -> & _). done.
Qed.

Lemma each_UpdateRow_agree {X} (proj : element → X) l s :
  (∀ e, proj (add_class "ignore" e) = proj e) →
  (∀ e, proj (remove_class "ignore" e) = proj e) →
  agree proj s (each UpdateRow l s).
Proof.
  intros Ha Hr. apply each_agree. intros. rewrite UpdateRow_sync. by apply sync_ignore_agree.
Qed.

Lemma each_UpdateRow_benign l s : benign s (each UpdateRow l s).
Proof.
  apply each_rel; [exact benign_refl|exact benign_trans|].
  intros. rewrite UpdateRow_sync. apply sync_ignore_benign.
Qed.

Lemma cascade_checked t s q :
  checked <$> elem_at q (cascade t s) = checked <$> elem_at q (togglechildren_B t s).
Proof. apply each_UpdateRow_agree; [apply checked_add_class|done]. Qed.

Lemma cascade_is_checked t s q :
  is_checked q (cascade t s) = is_checked q (togglechildren_B t s).
Proof.
  apply is_checked_agree, each_UpdateRow_agree; [apply pseudo_checked_add_class|done].
Qed.

Lemma cascade_benign t s : benign s (cascade t s).
Proof.
  eapply benign_trans; [apply togglechildren_B_benign|apply each_UpdateRow_benign].
Qed.

(** C2.  Children propagation: once the change event at a
    ['.togglechildren'] check-box has been handled, every
    ['.togglevisible'] element inside the closest table has its [checked]
    property equal to the toggle's checked state.  Stated for the handler
    of the second copy on any page, and for the change event of either
    copy on a page that meets the contract. *)
Theorem C2_children_follow_toggle :
  (∀ t s c, c ∈ children_of t s →
      checked <$> elem_at c (togglechildren_B t s)
      = Some (is_checked t (togglechildren_B t s)))
  ∧ (∀ v fuel s t, contract s → installed v s →
      t ∈ select_class "togglechildren" s →
      ∃ s', dispatch (run (S (S fuel))) Change t s = Some s'
            ∧ children_of t s' = children_of t s
            ∧ ∀ c, c ∈ children_of t s' →
                   checked <$> elem_at c s' = Some (is_checked t s')).
Proof.
  split; [apply togglechildren_B_checked|].
  intros [] fuel s t Hct Hi Ht.
  - exists (cascade t s). split; [by apply dispatch_togglechildren_A|].
    split; [apply children_of_benign, cascade_benign|].
    intros c. rewrite (children_of_benign t s) by apply cascade_benign. intros Hc.
    rewrite cascade_checked, cascade_is_checked. by apply togglechildren_B_checked.
  - exists (togglechildren_B t s). split; [by apply dispatch_togglechildren_B|].
    split; [apply children_of_benign, togglechildren_B_benign|].
    intros c. rewrite (children_of_benign t s) by apply togglechildren_B_benign.
    apply togglechildren_B_checked.
Qed.

Lemma pseudo_checked_input b e : tag e = "input" → pseudo_checked (set_checked b e) = b.
Proof. intros Ht. unfold pseudo_checked. simpl. rewrite Ht. simpl. apply orb_false_r. Qed.

Lemma children_of_select t s c : c ∈ children_of t s → c ∈ select_class "togglevisible" s.
Proof. apply find_class_subseteq. Qed.

(** On a page that meets the contract the elements of the set are
    [input]s, so after [.prop] each of them is checked iff the toggle is. *)
Lemma togglechildren_B_child_checked t s c :
  contract s → c ∈ children_of t s →
  is_checked c (togglechildren_B t s) = is_checked t s.
Proof.
  intros Hct Hc. unfold is_checked at 1. rewrite togglechildren_B_in by done.
  destruct (contract_select "togglevisible" s c) as (e & -> & _ & Ht & _);
    [done|unfold markers; set_solver|by apply (children_of_select t)|].
  simpl. by apply pseudo_checked_input.
Qed.

Lemma cascade_rows t s c :
  contract s → c ∈ children_of t s →
  is_checked c (cascade t s) = is_checked t (cascade t s) ∧ row_in_sync c (cascade t s).
Proof.
  intros Hct Hc.
  assert (is_checked c (cascade t s) = is_checked t s) as Hcc
    by (rewrite cascade_is_checked; by apply togglechildren_B_child_checked).
  split; [by rewrite Hcc, cascade_is_checked, togglechildren_B_this|].
  intros r Hr. rewrite Hcc.
  assert (closest "tr" c (togglechildren_B t s) = [r]) as Hr1.
  { rewrite <-Hr. symmetry.
    apply (closest_agree "tr" c (togglechildren_B t s) (cascade t s)), benign_tag,
      each_UpdateRow_benign. }
  apply (each_sync_ignore "tr" (λ _ s, s)).
  - intros. apply agree_refl.
  - intros c' Hc' _. by apply togglechildren_B_child_checked.
  - left. eauto.
Qed.

(** C3.  Cascading (first copy): after the change event at a children
    toggle, every element of the set is checked iff the toggle is and its
    closest row carries ["ignore"] iff it is unchecked.  In the scenario
    of the specification, clearing [C] leaves both row check-boxes
    unchecked and both rows with ["ignore"]. *)
Theorem C3_cascade_rows :
  (∀ fuel s t, contract s → installed First s →
      t ∈ select_class "togglechildren" s →
      ∃ s', dispatch (run (S (S fuel))) Change t s = Some s'
            ∧ ∀ c, c ∈ children_of t s' →
                   is_checked c s' = is_checked t s' ∧ row_in_sync c s')
  ∧ (∀ fuel, ∃ s0 s',
      ready_A (S fuel) scenario = Some s0
      ∧ is_checked toggle_C s0 = true
      ∧ is_checked box_R1 s0 = true ∧ is_checked box_R2 s0 = true
      ∧ matches_class "ignore" s0 row_R1 = false
      ∧ matches_class "ignore" s0 row_R2 = false
      ∧ dispatch (run (S (S fuel))) Change toggle_C (uncheck toggle_C s0) = Some s'
      ∧ is_checked box_R1 s' = false ∧ is_checked box_R2 s' = false
      ∧ matches_class "ignore" s' row_R1 = true
      ∧ matches_class "ignore" s' row_R2 = true).
Proof.
  split.
  - intros fuel s t Hct Hi Ht. exists (cascade t s).
    split; [by apply dispatch_togglechildren_A|].
    intros c. rewrite (children_of_benign t s) by apply cascade_benign.
    by apply cascade_rows.
  - intros fuel. exists (ready_A_result scenario).
    exists (cascade toggle_C (uncheck toggle_C (ready_A_result scenario))).
    split_and!; vm_compute; reflexivity.
Qed.

(** C4.  The two copies differ on the children toggle.  In the second
    copy the change event at a children toggle leaves every class
    attribute as it was, so rows keep a stale ["ignore"] state.  In the
    scenario, clearing [C] gives, in the first copy, unchecked boxes in
    rows that carry ["ignore"], and in the second copy unchecked boxes in
    rows that do not; there the row catches up only when a change event
    is fired at its own check-box. *)
Theorem C4_copies_differ :
  (∀ fuel s t, contract s → installed Second s →
      t ∈ select_class "togglechildren" s →
      ∃ s', dispatch (run (S (S fuel))) Change t s = Some s' ∧ agree classes s s')
  ∧ (∀ fuel, ∃ sA sB sB',
      (ready_A (S fuel) scenario
         ≫= λ s, dispatch (run (S (S fuel))) Change toggle_C (uncheck toggle_C s)) = Some sA
      ∧ dispatch (run (S (S fuel))) Change toggle_C (uncheck toggle_C (ready_B scenario))
        = Some sB
      ∧ is_checked box_R1 sA = false ∧ matches_class "ignore" sA row_R1 = true
      ∧ is_checked box_R1 sB = false ∧ matches_class "ignore" sB row_R1 = false
      ∧ ¬ row_in_sync box_R1 sB
      ∧ dispatch (run (S (S fuel))) Change box_R1 sB = Some sB'
      ∧ row_in_sync box_R1 sB').
Proof.
  split.
  - intros fuel s t Hct Hi Ht. exists (togglechildren_B t s).
    split; [by apply dispatch_togglechildren_B|]. by apply agree_each_el.
  - intros fuel.
    set (sB := togglechildren_B toggle_C (uncheck toggle_C (ready_B scenario))).
    exists (cascade toggle_C (uncheck toggle_C (ready_A_result scenario))), sB,
           (UpdateRow box_R1 sB).
    split_and!; try (vm_compute; reflexivity).
    + intros Hsync. specialize (Hsync row_R1). vm_compute in Hsync.
      by specialize (Hsync eq_refl).
    + rewrite UpdateRow_sync. apply sync_ignore_in_sync.
Qed.

(** ** The section toggle *)

(** C5.  Section visibility (first copy), as the code has it.  Whenever
    the section handler has run for an element, its closest table carries
    ["ignore"] iff the element is not checked.  This is the state after
    each call of the handler and after every change event at a section
    check-box.  The ready callback fires [change] at every
    ['.togglesection'] element in document order, so the table follows
    the last of them: after it a section check-box is in sync with its
    table exactly when it has no table or has the checked state of the
    last section check-box with the same closest table, in particular
    when it is that last one itself.  The second copy binds no handler to
    these elements: there the event changes nothing. *)
Theorem C5_section_sync :
  (∀ this s, table_in_sync this (togglesection this s))
  ∧ (∀ fuel s c, fresh s → contract s →
        c ∈ select_class "togglesection" s →
        ∃ s', ready_A (S fuel) s = Some s'
              ∧ (table_in_sync c s'
                 ↔ closest "table" c s = []
                   ∨ is_checked c s
                     = is_checked (last_sharing "table" "togglesection" c s) s))
  ∧ (∀ fuel s c, contract s → installed First s →
        c ∈ select_class "togglesection" s →
        ∃ s', dispatch (run (S fuel)) Change c s = Some s' ∧ table_in_sync c s')
  ∧ (∀ fuel s c, contract s → installed Second s →
        c ∈ select_class "togglesection" s →
        dispatch (run (S fuel)) Change c s = Some s).
Proof.
  split_and!.
  - intros this s. rewrite togglesection_sync. apply sync_ignore_in_sync.
  - intros fuel s c Hf Hct Hc. exists (ready_A_result s).
    split; [by apply ready_A_eq|].
    apply in_sync_last; [apply ready_A_undisturbed|].
    intros r Hr. by apply ready_A_tables_last.
  - intros fuel s c Hct Hi Hc. exists (togglesection c s).
    split; [by apply dispatch_togglesection|].
    rewrite togglesection_sync. apply sync_ignore_in_sync.
  - intros fuel s c Hct Hi Hc.
    destruct (contract_select "togglesection" s c) as (e & He & Hr & Ht & _);
      [done|unfold markers; set_solver|done|].
    rewrite (dispatch_installed Second _ _ _ _ e) by done.
    by rewrite expected_roles, Hr, Ht.
Qed.

(** ** The set reached by the children toggle *)

Lemma cascade_out t s q :
  q ∉ children_of t s → checked <$> elem_at q (cascade t s) = checked <$> elem_at q s.
Proof. intros Hq. by rewrite cascade_checked, togglechildren_B_out. Qed.

Lemma cascade_in t s q :
  q ∈ children_of t s → checked <$> elem_at q (cascade t s) = Some (is_checked t s).
Proof.
  intros Hq. rewrite cascade_checked, togglechildren_B_checked by done.
  by rewrite togglechildren_B_this.
Qed.

(** C10.  The set the children toggle reaches.  [children_of t s] holds
    exactly the elements of class ["togglevisible"] that are proper
    descendants, at any depth, of the table [closest] returns for [t]:
    the nearest among [t] and its ancestors that is a [table].  In both
    copies the change event writes [checked] on these elements and on no
    other.  With nested tables the outer toggle reaches the check-boxes
    of the inner table too, and the inner toggle only those. *)
Theorem C10_children_set :
  (∀ t s c, c ∈ children_of t s ↔
      ∃ T e, closest "table" t s = [T] ∧ is_descendant c T
             ∧ elem_at c s = Some e ∧ "togglevisible" ∈ classes e)
  ∧ (∀ t s T, closest "table" t s = [T] ↔
      T `prefix_of` t ∧ matches_tag "table" s T
      ∧ ∀ q, q `prefix_of` t → matches_tag "table" s q → q `prefix_of` T)
  ∧ (∀ v fuel s t, contract s → installed v s →
      t ∈ select_class "togglechildren" s →
      ∃ s', dispatch (run (S (S fuel))) Change t s = Some s'
        ∧ (∀ q, q ∈ children_of t s → checked <$> elem_at q s' = Some (is_checked t s))
        ∧ (∀ q, q ∉ children_of t s → checked <$> elem_at q s' = checked <$> elem_at q s))
  ∧ (∀ t s q, q ∉ children_of t s → elem_at q (togglechildren_B t s) = elem_at q s)
  ∧ children_of outer_toggle nested = [outer_box; inner_box]
  ∧ children_of inner_toggle nested = [inner_box].
Proof.
  split_and!.
  - intros t s c. unfold children_of. rewrite find_class_spec. split.
    + intros [(e & He & Hc) (T & HT & Hd)].
      destruct (closest_cases "table" t s) as [Hn|[T' HT']]; rewrite ?Hn, ?HT' in HT.
      * by apply elem_of_nil in HT.
      * apply list_elem_of_singleton in HT as ->. exists T', e.
        split_and!; [done..|]. by apply bool_decide_unpack in Hc.
    + intros (T & e & HT & Hd & He & Hc). split.
      * exists e. split; [done|]. by apply bool_decide_pack.
      * exists T. rewrite HT. split; [left|done].
  - intros t s T. apply closest_Some.
  - intros [] fuel s t Hct Hi Ht.
    + exists (cascade t s). split; [by apply dispatch_togglechildren_A|].
      split; [apply cascade_in|apply cascade_out].
    + exists (togglechildren_B t s). split; [by apply dispatch_togglechildren_B|]. split.
      * intros q Hq. rewrite togglechildren_B_checked by done.
        by rewrite togglechildren_B_this.
      * intros q Hq. by rewrite togglechildren_B_out.
  - apply togglechildren_B_out.
  - vm_compute. reflexivity.
  - vm_compute. reflexivity.
Qed.

(** ** Text areas *)

Lemma height_of_css v self s :
  is_Some (elem_at self s) → height_of self (css "height" v [self] s) = Some v.
Proof.
  intros [e He]. unfold height_of, css. simpl. rewrite elem_at_alter_el_eq, He. simpl.
  apply lookup_insert_eq.
Qed.

Lemma update_height self s :
  is_Some (elem_at self s) →
  height_of self (update self s)
  = Some (pretty (scrollHeight (css "height" "1em" [self] s) self) +:+ "px").
Proof.
  intros He. unfold update. apply height_of_css.
  unfold css. simpl. rewrite elem_at_alter_el_eq. by apply fmap_is_Some.
Qed.

Lemma update_other self s q : q ≠ self → elem_at q (update self s) = elem_at q s.
Proof.
  intros Hq. unfold update, css. simpl. by rewrite !elem_at_alter_el_ne.
Qed.

Lemma sans_height_set_style v e : sans_height (set_style "height" v e) = sans_height e.
Proof. unfold sans_height. simpl. by rewrite delete_insert_eq. Qed.

Lemma update_sans_height self s : agree sans_height s (update self s).
Proof.
  unfold update. eapply agree_trans; apply agree_each_el; intros; apply sans_height_set_style.
Qed.

Lemma each_app (fn : path → page → page) l1 l2 s :
  each fn (l1 ++ l2) s = each fn l2 (each fn l1 s).
Proof. apply foldl_app. Qed.

Lemma each_cons (fn : path → page → page) a l s :
  each fn (a :: l) s = each fn l (fn a s).
Proof. reflexivity. Qed.

Lemma height_of_style t s s' :
  style <$> elem_at t s' = style <$> elem_at t s → height_of t s' = height_of t s.
Proof.
  unfold height_of. intros H.
  destruct (elem_at t s'), (elem_at t s); simpl in *; [injection H as ->|..]; done.
Qed.

(** A loop that runs [update] for each element of a list, possibly after
    a step [g] that writes no style: an element keeps the height set when
    its turn came. *)
Lemma each_measure (g : path → page → page) l1 t l2 s :
  (∀ this s, agree style s (g this s)) →
  t ∉ l2 → is_Some (elem_at t (each (λ this s, update this (g this s)) l1 s)) →
  height_of t (each (λ this s, update this (g this s)) (l1 ++ t :: l2) s)
  = Some (pretty (scrollHeight
                    (css "height" "1em" [t]
                       (g t (each (λ this s, update this (g this s)) l1 s))) t) +:+ "px").
Proof.
  intros Hg Ht He. rewrite each_app, each_cons.
  set (s1 := each _ l1 s) in *.
  rewrite <-update_height by (by rewrite (agree_is_Some _ _ _ _ (Hg t s1))).
  generalize (update t (g t s1)) as s2. clear s1 He. intros s2.
  revert s2. induction l2 as [|a l2 IH]; intros s2; [done|].
  apply not_elem_of_cons in Ht as [Hne Ht]. rewrite each_cons, IH by done.
  apply height_of_style. rewrite update_other by done. apply Hg.
Qed.

Lemma bind_textarea_listeners_only_undisturbed this s :
  undisturbed s (bind_textarea_listeners_only this s).
Proof.
  unfold bind_textarea_listeners_only.
  eapply undisturbed_trans; [apply bind_undisturbed|].
  eapply undisturbed_trans; [apply bind_undisturbed|].
  eapply undisturbed_trans; [apply (bind_undisturbed KeyDown)|]. by split.
Qed.

Lemma bind_textarea_listeners_only_style this s :
  agree style s (bind_textarea_listeners_only this s).
Proof.
  unfold bind_textarea_listeners_only.
  eapply agree_trans; [by apply (agree_each_el style (add_listener Change (fn_update this)))|].
  eapply agree_trans; [by apply (agree_each_el style (add_listener KeyUp (fn_update this)))|].
  by apply (agree_each_el style (add_listener KeyDown (fn_update this))).
Qed.

(** After the text-area loop of the ready callbacks, each text area has
    the height measured on a page that differs from the one the loop
    started with in styles and listeners only. *)
Lemma each_bind_textarea_height s t :
  t ∈ select_tag "textarea" s →
  ∃ s1, undisturbed s s1
        ∧ height_of t (each bind_textarea (select_tag "textarea" s) s)
          = Some (pretty (scrollHeight (css "height" "1em" [t] s1) t) +:+ "px").
Proof.
  intros Ht. pose proof (NoDup_select_tag "textarea" s) as Hnd.
  assert (is_Some (elem_at t s)) as He.
  { apply select_tag_spec in Ht as (e & -> & _). eauto. }
  destruct (list_elem_of_split _ _ Ht) as (l1 & l2 & Hl). rewrite Hl in Hnd |- *.
  apply NoDup_app in Hnd as (_ & _ & [Hnot _]%NoDup_cons).
  set (s0 := each bind_textarea l1 s).
  assert (undisturbed s s0) as Hu by apply each_undisturbed, bind_textarea_undisturbed.
  exists (bind_textarea_listeners_only t s0). split.
  - eapply undisturbed_trans; [done|apply bind_textarea_listeners_only_undisturbed].
  - apply (each_measure bind_textarea_listeners_only l1 t l2 s).
    + apply bind_textarea_listeners_only_style.
    + done.
    + change (is_Some (elem_at t s0)).
      by rewrite (agree_is_Some _ _ _ _ (undisturbed_stable _ _ Hu)).
Qed.

(** C6.  Text areas: [update] sets the inline height to ['1em'], reads
    [scrollHeight] on the page so obtained, and sets the inline height to
    that number followed by ['px']; nothing else in the page changes.
    Change, key-up and key-down at a text area run its [update]; a window
    resize runs the [update] of every text area, in document order; the
    ready callback of either copy runs it once for every text area. *)
Theorem C6_textarea_autosize :
  (∀ self s, is_Some (elem_at self s) →
      height_of self (css "height" "1em" [self] s) = Some "1em"
      ∧ height_of self (update self s)
        = Some (pretty (scrollHeight (css "height" "1em" [self] s) self) +:+ "px")
      ∧ (∀ q, q ≠ self → elem_at q (update self s) = elem_at q s)
      ∧ agree sans_height s (update self s))
  ∧ (∀ v fuel ev t s, contract s → installed v s →
      t ∈ select_tag "textarea" s → ev ∈ [Change; KeyUp; KeyDown] →
      dispatch (run (S fuel)) ev t s = Some (update t s))
  ∧ (∀ v fuel s, installed v s →
      ∃ s', dispatch_window (run (S fuel)) Resize s = Some s'
        ∧ ∀ l1 t l2, select_tag "textarea" s = l1 ++ t :: l2 →
            height_of t s'
            = Some (pretty (scrollHeight
                              (css "height" "1em" [t] (each update l1 s)) t) +:+ "px"))
  ∧ (∀ s t, t ∈ select_tag "textarea" s →
      ∃ s1, undisturbed s s1
        ∧ height_of t (ready_B s)
          = Some (pretty (scrollHeight (css "height" "1em" [t] s1) t) +:+ "px"))
  ∧ (∀ fuel s t, fresh s → contract s → t ∈ select_tag "textarea" s →
      ∃ s' s1, ready_A (S fuel) s = Some s' ∧ undisturbed s s1
        ∧ height_of t s'
          = Some (pretty (scrollHeight (css "height" "1em" [t] s1) t) +:+ "px")).
Proof.
  split_and!.
  - intros self s He. split_and!.
    + by apply height_of_css.
    + by apply update_height.
    + intros q. apply update_other.
    + apply update_sans_height.
  - intros v fuel ev t s Hct Hi Ht Hev. apply (dispatch_textarea v); [done..|].
    intros ->. set_solver.
  - intros v fuel s Hi. eexists. split; [by apply (dispatch_resize v)|].
    intros l1 t l2 Hl. pose proof (NoDup_select_tag "textarea" s) as Hnd.
    assert (t ∈ select_tag "textarea" s) as Ht by (rewrite Hl; set_solver).
    rewrite Hl in Hnd |- *. apply NoDup_app in Hnd as (_ & _ & [Hnot _]%NoDup_cons).
    apply (each_measure (λ _ s, s) l1 t l2 s); [intros; apply agree_refl|done|].
    apply select_tag_spec in Ht as (e & He & _).
    assert (benign s (each update l1 s)) as Hb.
    { apply each_rel; [exact benign_refl|exact benign_trans|]. intros. apply update_benign. }
    rewrite (agree_is_Some _ _ _ _ (benign_skeleton _ _ Hb)), He. eauto.
  - intros s t Ht. unfold ready_B. fold (rows_bound s).
    set (s2 := bind Change (fn_togglechildren false)
                 (select_class "togglechildren" (rows_bound s)) (rows_bound s)).
    assert (undisturbed s s2) as Hu.
    { eapply undisturbed_trans; [apply rows_bound_undisturbed|apply bind_undisturbed]. }
    destruct (each_bind_textarea_height s2 t) as (s1 & Hu1 & Hh).
    { by rewrite (undisturbed_select_tag _ s s2). }
    exists s1. split; [by eapply undisturbed_trans|done].
  - intros fuel s t Hf Hct Ht. exists (ready_A_result s).
    unfold ready_A_result.
    set (s4 := each togglesection (select_class "togglesection" (classes_bound s))
                 (classes_bound s)).
    assert (undisturbed s s4) as Hu.
    { eapply undisturbed_trans;
        [apply classes_bound_undisturbed|apply each_togglesection_undisturbed]. }
    destruct (each_bind_textarea_height s4 t) as (s1 & Hu1 & Hh).
    { by rewrite (undisturbed_select_tag _ s s4). }
    exists s1. split_and!; [by apply ready_A_eq|by eapply undisturbed_trans|done].
Qed.

(** ** Why roles must be exclusive

    In the first copy a check-box that is both a row check-box and a
    children toggle, inside a table, belongs to the set its own handler
    fires [change] at: the handler calls itself without end. *)

Lemma seq_run_stuck {A} (R : relation page) (f : A → page → option page) h l s :
  Reflexive R → Transitive R →
  (∀ a s s', f a s = Some s' → R s s') →
  h ∈ l → (∀ s', R s s' → f h s' = None) →
  seq_run f l s = None.
Proof.
  intros ? ? Hf Hh. revert s. induction l as [|a l IH]; intros s Hnone.
  { by apply elem_of_nil in Hh. }
  rewrite seq_run_cons. destruct (f a s) as [s1|] eqn:Hs1; [|done]. simpl.
  apply elem_of_cons in Hh as [->|Hh].
  - by rewrite Hnone in Hs1.
  - apply IH; [done|]. intros s' Hs'. apply Hnone. trans s1; [by eapply Hf|done].
Qed.

(** X4.  A children toggle of the first copy that is itself in the set it
    propagates to (a ['.togglevisible'] element inside its closest table)
    never finishes handling a change event: whatever the nesting budget,
    dispatch gives no result. *)
Theorem X4_self_cascade_diverges s c :
  c ∈ children_of c s →
  fn_togglechildren true ∈ listeners_at Change c s →
  ∀ fuel, dispatch (run fuel) Change c s = None.
Proof.
  intros Hc Hh fuel.
  enough (∀ s', benign s s' → dispatch (run fuel) Change c s' = None) as Hall
    by apply Hall, benign_refl.
  induction fuel as [|fuel IH]; intros s' Hb; unfold dispatch, inclusive_ancestors;
    rewrite seq_run_cons;
    rewrite (seq_run_stuck benign _ (fn_togglechildren true)); try done;
    try exact benign_refl; try exact benign_trans;
    try (intros ???; apply run_benign);
    try (by rewrite (listeners_at_agree Change c s s') by by apply benign_listeners).
  intros s1 Hb1. cbn [run]. unfold togglechildren_A.
  fold (children_of c s1). unfold trigger.
  assert (benign s s1) as Hb1' by by eapply benign_trans.
  apply (seq_run_stuck benign _ c); try exact benign_refl; try exact benign_trans.
  - intros ???. apply dispatch_rel; [exact benign_refl|exact benign_trans|].
    intros ????. apply run_benign.
  - by rewrite (children_of_benign c s s1).
  - intros s2 Hb2. apply IH. eapply benign_trans; [done|].
    eapply benign_trans; [|done]. apply togglechildren_B_benign.
Qed.

(** ** The states a page goes through *)

Lemma benign_same_wiring s s' : benign s s' → same_wiring s s'.
Proof.
  intros [He Hw _ Hs]. split; [done..|]. revert Hs. apply agree_weaken.
  unfold wiring. by intros e e' [= -> -> _ _ ->].
Qed.

Lemma same_wiring_invariants v s s' :
  same_wiring s s' → contract s ∧ installed v s → contract s' ∧ installed v s'.
Proof.
  intros [He Hw Hs] [Hct [Hel Hwin]].
  assert (agree shape s s') as Hsh.
  { revert Hs. apply agree_weaken. unfold shape. by intros e e' [= -> -> _]. }
  split; [by apply (contract_shape s)|]. split.
  - rewrite all_elements_spec in *. intros p e' He'.
    destruct (agree_Some _ _ _ _ _ Hs He') as (e & Hee & Hwi).
    rewrite (expected_shape v p e' e) by (unfold shape; by injection Hwi as -> -> _).
    rewrite <-(Hel p e Hee). by injection Hwi.
  - rewrite Hw, Hwin. f_equal. symmetry. apply select_tag_agree; [done|].
    revert Hsh. apply agree_weaken. by intros e e' [= -> _].
Qed.

Lemma reachable_invariants v loaded s :
  contract loaded → installed v loaded → reachable loaded s →
  contract s ∧ installed v s.
Proof.
  intros Hct Hi. induction 1 as [|s c b _ IH|s t txt _ IH|s w h _ IH
                                |s fuel ev c s' _ IH Hd|s fuel ev s' _ IH Hd].
  - done.
  - revert IH. apply same_wiring_invariants, benign_same_wiring. by apply benign_each_el.
  - revert IH. apply same_wiring_invariants. split; [apply elements_alter_el|done|].
    by apply agree_alter_el.
  - revert IH. by apply same_wiring_invariants.
  - revert IH. apply same_wiring_invariants, benign_same_wiring.
    revert Hd. apply dispatch_rel; [exact benign_refl|exact benign_trans|].
    intros ????. apply run_benign.
  - revert IH. apply same_wiring_invariants, benign_same_wiring.
    revert Hd. apply dispatch_window_rel; [exact benign_refl|exact benign_trans|].
    intros ????. apply run_benign.
Qed.

(** Both ready callbacks establish the invariants. *)
Lemma ready_invariants s :
  fresh s → contract s →
  (contract (ready_B s) ∧ installed Second (ready_B s))
  ∧ ∀ fuel, ∃ s', ready_A (S fuel) s = Some s' ∧ contract s' ∧ installed First s'.
Proof.
  intros Hf Hct. split.
  - split; [|by apply ready_B_installed].
    revert Hct. apply contract_shape, undisturbed_shape, ready_B_undisturbed.
  - intros fuel. exists (ready_A_result s). split_and!.
    + by apply ready_A_eq.
    + revert Hct. apply contract_shape, undisturbed_shape, ready_A_undisturbed.
    + by apply ready_A_installed.
Qed.

(** * Further properties of the scripts *)

(** ** Pages are determined by their elements *)

Lemma node_ext (n n' : node) :
  (∀ p, node_el <$> lookup_node p n = node_el <$> lookup_node p n') → n = n'.
Proof.
  revert n'. induction n as [e ks IH] using node_ind. intros [e' ks'] Heq.
  f_equal.
  - specialize (Heq []). by injection Heq.
  - apply list_eq. intros i. rewrite Forall_lookup in IH.
    destruct (ks !! i) as [k|] eqn:Hk, (ks' !! i) as [k'|] eqn:Hk'.
    + f_equal. apply (IH i k Hk). intros p. specialize (Heq (i :: p)).
      simpl in Heq. by rewrite Hk, Hk' in Heq.
    + specialize (Heq [i]). simpl in Heq. by rewrite Hk, Hk' in Heq.
    + specialize (Heq [i]). simpl in Heq. by rewrite Hk, Hk' in Heq.
    + done.
Qed.

Lemma page_ext s s' :
  (∀ q, elem_at q s' = elem_at q s) →
  window_listeners s' = window_listeners s → viewport s' = viewport s → s' = s.
Proof.
  destruct s as [d w v], s' as [d' w' v']. simpl. intros Hel -> ->. f_equal.
  apply node_ext. intros p. apply Hel.
Qed.

Lemma each_el_idemp f set s :
  (∀ e, f (f e) = f e) → each_el f set (each_el f set s) = each_el f set s.
Proof.
  intros Hf. apply page_ext.
  - intros q. destruct (decide (q ∈ set)) as [Hq|Hq].
    + rewrite !elem_at_each_el_idemp by done.
      destruct (elem_at q s); simpl; [|done]. by rewrite Hf.
    + by rewrite !elem_at_each_el_notin.
  - by rewrite !window_listeners_each_el.
  - by rewrite !viewport_each_el.
Qed.

(** ** Events *)

(** X3.  No event rewires the page.  Whatever event is dispatched, at
    whatever element, in whatever state and with whatever nesting budget,
    the page that results has the same tree, the same window listeners and
    viewport, and in every element the same tag, the same classes other
    than ["ignore"], the same [selected] and [value] and the same
    listeners: handlers write the ["ignore"] class, [checked] and the
    inline style, and nothing else. *)
Theorem X3_events_keep_skeleton fuel ev :
  (∀ c s s', dispatch (run fuel) ev c s = Some s' → benign s s')
  ∧ (∀ s s', dispatch_window (run fuel) ev s = Some s' → benign s s')
  ∧ (∀ set s s', trigger (run fuel) ev set s = Some s' → benign s s').
Proof.
  split_and!.
  - intros c s s'. apply dispatch_rel; [exact benign_refl|exact benign_trans|].
    intros ????. apply run_benign.
  - intros s s'. apply dispatch_window_rel; [exact benign_refl|exact benign_trans|].
    intros ????. apply run_benign.
  - intros set s s'. apply trigger_rel; [exact benign_refl|exact benign_trans|].
    intros ????. apply run_benign.
Qed.

(** ** What the ready callbacks bind *)

(** X1.  The ready callback of the second copy, on any page: it appends
    to every element the listeners its classes and tag call for
    ([UpdateRow] on [change] for ['.togglevisible'], the children handler
    on [change] for ['.togglechildren'], [update] on [change], [keyup]
    and [keydown] for a text area) after those already bound, and to the
    window one [resize] listener per text area, in document order.  It
    leaves the tree, the viewport and, in every element, everything but
    the ["ignore"] class, the inline style and the listeners as they
    were.  On a page without listeners the result has exactly the
    expected ones. *)
Theorem X1_ready_B_binds s :
  (∀ q, listeners <$> elem_at q (ready_B s)
        = (λ e, listeners e ++ expected Second q e) <$> elem_at q s)
  ∧ window_listeners (ready_B s)
    = window_listeners s ++ ((λ t, (Resize, fn_update t)) <$> select_tag "textarea" s)
  ∧ undisturbed s (ready_B s)
  ∧ (fresh s → installed Second (ready_B s)).
Proof.
  split_and!.
  - apply ready_B_listeners.
  - apply ready_B_window.
  - apply ready_B_undisturbed.
  - apply ready_B_installed.
Qed.

(** X2.  The ready callback of the first copy, on a page without
    listeners that meets the DOM contract: with any positive nesting
    budget it returns a page; that page has exactly the expected
    listeners (those of the second copy, with the cascading children
    handler, plus the section handler on ['.togglesection']), still meets
    the contract, and differs from the page it was given only in
    ["ignore"] classes, inline styles and listeners. *)
Theorem X2_ready_A_binds fuel s :
  fresh s → contract s →
  ∃ s', ready_A (S fuel) s = Some s'
        ∧ installed First s' ∧ contract s' ∧ undisturbed s s'
        ∧ ∀ q, listeners <$> elem_at q s' = expected First q <$> elem_at q s.
Proof.
  intros Hf Hct. exists (ready_A_result s). split_and!.
  - by apply ready_A_eq.
  - by apply ready_A_installed.
  - revert Hct. apply contract_shape, undisturbed_shape, ready_A_undisturbed.
  - apply ready_A_undisturbed.
  - intros q. pose proof (ready_A_installed s Hf) as [Hel _].
    rewrite all_elements_spec in Hel.
    pose proof (undisturbed_shape _ _ (ready_A_undisturbed s)) as Hsh.
    destruct (elem_at q (ready_A_result s)) as [e'|] eqn:He'.
    + destruct (agree_Some _ _ _ _ _ Hsh He') as (e & -> & Hsh').
      simpl. f_equal. rewrite (Hel q e' He'). by apply expected_shape.
    + pose proof (agree_is_Some _ _ _ q Hsh) as Hiff. rewrite He' in Hiff.
      destruct (elem_at q s) as [e|]; [|done]. destruct Hiff as [_ [? ?]]; [eauto|done].
Qed.

(** ** The section handler *)

(** X5.  The section handler (first copy) behaves like [UpdateRow] with
    [table] for [tr]: running it twice is running it once; when neither
    [this] nor an ancestor is a [table] it returns the page it was given;
    it touches no element but the closest table, and that one only in the
    presence of ["ignore"]. *)
Theorem X5_togglesection_handler this s :
  togglesection this (togglesection this s) = togglesection this s
  ∧ (Forall (λ q, ¬ matches_tag "table" s q) (inclusive_ancestors this) →
     togglesection this s = s)
  ∧ (∀ q, q ∉ closest "table" this s → elem_at q (togglesection this s) = elem_at q s)
  ∧ (∀ q, remove_class "ignore" <$> elem_at q (togglesection this s)
          = remove_class "ignore" <$> elem_at q s)
  ∧ elements (togglesection this s) = elements s
  ∧ window_listeners (togglesection this s) = window_listeners s
  ∧ viewport (togglesection this s) = viewport s.
Proof.
  rewrite togglesection_sync. split_and!.
  - apply sync_ignore_idemp.
  - intros Hno. apply sync_ignore_no_target, closest_nil. intros q Hq.
    rewrite Forall_forall in Hno. by apply Hno, elem_of_inclusive_ancestors.
  - intros q. apply sync_ignore_other.
  - apply (sync_ignore_agree (remove_class "ignore")).
    + apply remove_class_add_class.
    + apply remove_class_idemp.
  - apply sync_ignore_elements.
  - apply sync_ignore_window.
  - apply sync_ignore_viewport.
Qed.

(** ** The children handler *)

Lemma children_of_no_table t s :
  Forall (λ q, ¬ matches_tag "table" s q) (inclusive_ancestors t) → children_of t s = [].
Proof.
  intros Hno. unfold children_of.
  assert (closest "table" t s = []) as ->.
  { apply closest_nil. intros q Hq. rewrite Forall_forall in Hno.
    by apply Hno, elem_of_inclusive_ancestors. }
  apply elem_of_nil_inv. intros q [_ (T & []%elem_of_nil & _)]%find_class_spec.
Qed.

(** X6.  The children handler.  Second copy: running it twice is running
    it once.  Both copies: when the set is empty, in particular when
    neither the toggle nor an ancestor is a [table], the handler returns
    the page it was given (and the first copy fires no event, so one level
    of nesting budget is enough). *)
Theorem X6_togglechildren_handler t s :
  togglechildren_B t (togglechildren_B t s) = togglechildren_B t s
  ∧ (Forall (λ q, ¬ matches_tag "table" s q) (inclusive_ancestors t) →
     children_of t s = [])
  ∧ (children_of t s = [] →
     togglechildren_B t s = s
     ∧ ∀ fuel, run (S fuel) (fn_togglechildren true) (Elem t) s = Some s).
Proof.
  split_and!.
  - unfold togglechildren_B at 1. fold (children_of t (togglechildren_B t s)).
    rewrite togglechildren_B_this.
    rewrite (children_of_benign t s) by apply togglechildren_B_benign.
    by apply each_el_idemp.
  - apply children_of_no_table.
  - intros Hnil. assert (togglechildren_B t s = s) as Hs.
    { unfold togglechildren_B. fold (children_of t s). rewrite Hnil. by destruct s. }
    split; [done|]. intros fuel. cbn [run]. unfold togglechildren_A.
    fold (children_of t s). by rewrite Hnil.
Qed.

(** ** [update] *)

Lemma css_css k v v' self s :
  css k v [self] (css k v' [self] s) = css k v [self] s.
Proof.
  unfold css. simpl. unfold alter_el, set_document. simpl.
  rewrite modify_modify. f_equal. apply modify_ext. intros e.
  unfold set_style. simpl. by rewrite insert_insert_eq.
Qed.

(** X7.  [update] forgets the previous inline height: the page it
    returns does not depend on the height the text area had, so the text
    area shrinks as well as grows; and running [update] twice is running
    it once, whatever the rendering engine measures. *)
Theorem X7_update_forgets_height self s :
  (∀ v, update self (css "height" v [self] s) = update self s)
  ∧ update self (update self s) = update self s.
Proof.
  assert (∀ s v, update self (css "height" v [self] s) = update self s) as Hv.
  { intros s' v. unfold update. cbv zeta. by rewrite (css_css "height" "1em" v self s'). }
  split; [apply Hv|].
  etrans; [|apply (Hv s "1em")].
  exact (Hv (css "height" "1em" [self] s)
            (pretty (scrollHeight (css "height" "1em" [self] s) self) +:+ "px")).
Qed.

(** ** A larger budget changes no result *)

Lemma seq_run_mono {A} (f g : A → page → option page) l s s' :
  (∀ a s s', f a s = Some s' → g a s = Some s') →
  seq_run f l s = Some s' → seq_run g l s = Some s'.
Proof.
  intros Hfg. revert s. induction l as [|a l IH]; intros s; [done|].
  rewrite !seq_run_cons. destruct (f a s) as [s1|] eqn:Hs1; [|done].
  rewrite (Hfg a s s1 Hs1). simpl. apply IH.
Qed.

Lemma dispatch_window_mono (r r' : handler → target → page → option page) ev s s' :
  (∀ h t s s', r h t s = Some s' → r' h t s = Some s') →
  dispatch_window r ev s = Some s' → dispatch_window r' ev s = Some s'.
Proof. intros Hr. apply seq_run_mono. intros ???. apply Hr. Qed.

Lemma dispatch_mono_gen (r r' : handler → target → page → option page) ev c s s' :
  (∀ h t s s', r h t s = Some s' → r' h t s = Some s') →
  dispatch r ev c s = Some s' → dispatch r' ev c s = Some s'.
Proof.
  intros Hr. unfold dispatch. intros (s1 & Hs1 & Hw)%bind_Some.
  apply bind_Some. exists s1. split.
  - revert Hs1. apply seq_run_mono. intros cur s2 s3. apply seq_run_mono.
    intros ???. apply Hr.
  - by apply (dispatch_window_mono r).
Qed.

Lemma run_mono fuel h this s s' :
  run fuel h this s = Some s' → run (S fuel) h this s = Some s'.
Proof.
  revert h this s s'. induction fuel as [|fuel IH]; intros h this s s'; [done|].
  destruct h as [|[]| |self], this as [|this]; try done.
  cbn [run]. unfold togglechildren_A, trigger. apply seq_run_mono.
  intros c s1 s2. apply dispatch_mono_gen, IH.
Qed.

Lemma run_mono_le fuel fuel' h this s s' :
  fuel ≤ fuel' → run fuel h this s = Some s' → run fuel' h this s = Some s'.
Proof. induction 1; [done|]. intros. by apply run_mono, IHle. Qed.

Lemma dispatch_mono fuel fuel' ev c s s' :
  fuel ≤ fuel' →
  dispatch (run fuel) ev c s = Some s' → dispatch (run fuel') ev c s = Some s'.
Proof. intros Hle. apply dispatch_mono_gen. intros ????. by apply run_mono_le. Qed.

Lemma dispatch_window_mono_le fuel fuel' ev s s' :
  fuel ≤ fuel' →
  dispatch_window (run fuel) ev s = Some s' → dispatch_window (run fuel') ev s = Some s'.
Proof. intros Hle. apply dispatch_window_mono. intros ????. by apply run_mono_le. Qed.

(** ** Sessions of the first copy *)

Lemma in_sync_transfer t c s s' :
  agree tag s s' → is_checked c s' = is_checked c s →
  (∀ r, closest t c s = [r] → matches_class "ignore" s' r = matches_class "ignore" s r) →
  in_sync t c s → in_sync t c s'.
Proof.
  intros Htag Hch Hcl Hsync r Hr. rewrite (closest_agree _ _ s s') in Hr by done.
  rewrite Hch, Hcl by done. by apply Hsync.
Qed.

Lemma in_sync_semantic t c s s' : agree semantic s s' → in_sync t c s → in_sync t c s'.
Proof.
  intros Hs. apply in_sync_transfer.
  - by apply semantic_tag.
  - by apply is_checked_agree, semantic_checked.
  - intros r _. by apply matches_class_agree, semantic_class.
Qed.

Lemma rows_exclusive_spec s :
  rows_exclusive s ↔
  ∀ c c' r, c ∈ select_class "togglevisible" s → c' ∈ select_class "togglevisible" s →
            closest "tr" c s = [r] → closest "tr" c' s = [r] → c' = c.
Proof.
  unfold rows_exclusive. rewrite Forall_forall. split.
  - intros H c c' r Hc Hc' Hr Hr'. specialize (H c Hc). rewrite Forall_forall in H.
    destruct (H c' Hc') as [Hnil| ->]; [congruence| |done]. by rewrite Hr in Hnil.
  - intros H c Hc. apply Forall_forall. intros c' Hc' Heq.
    destruct (closest_cases "tr" c s) as [?|[r Hr]]; [by left|]. right.
    apply (H c c' r); congruence.
Qed.

Lemma rows_exclusive_shape s s' :
  elements s' = elements s → agree shape s s' → rows_exclusive s → rows_exclusive s'.
Proof.
  intros He Hsh. rewrite !rows_exclusive_spec. intros H c c' r.
  assert (agree tag s s') as Htag.
  { revert Hsh. apply agree_weaken. by intros e e' [= -> _]. }
  assert (agree (has_class "togglevisible") s s') as Hcl.
  { revert Hsh. apply agree_weaken. intros e e'. by apply has_class_shape. }
  rewrite (select_class_agree _ s s'), !(closest_agree _ _ s s') by done. apply H.
Qed.

Lemma each_UpdateRow_other l s r :
  (∀ c, c ∈ l → r ∉ closest "tr" c s) →
  elem_at r (each UpdateRow l s) = elem_at r s.
Proof.
  revert s. induction l as [|a l IH]; intros s Hl; [done|].
  rewrite each_cons, IH.
  - rewrite UpdateRow_sync. apply sync_ignore_other, Hl. left.
  - intros c Hc. rewrite UpdateRow_sync, sync_ignore_closest. apply Hl. by right.
Qed.

Lemma roles_markers e m : m ∈ roles e → m ∈ markers.
Proof. unfold roles. by intros [_ ?]%list_elem_of_filter. Qed.

(** What a single event can do on a page that meets the contract, with
    the listeners of the first copy installed. *)
Lemma dispatch_outcome fuel ev c s s' e :
  contract s → installed First s → elem_at c s = Some e → ev ≠ Resize →
  dispatch (run fuel) ev c s = Some s' →
  (s' = s ∧ (ev = Change → ∀ m, m ∈ markers → c ∉ select_class m s))
  ∨ (c ∈ select_class "togglevisible" s ∧ s' = UpdateRow c s)
  ∨ (c ∈ select_class "togglechildren" s ∧ s' = cascade c s)
  ∨ (c ∈ select_class "togglesection" s ∧ s' = togglesection c s)
  ∨ (c ∈ select_tag "textarea" s ∧ s' = update c s).
Proof.
  intros Hct Hi He Hev Hd.
  apply (dispatch_mono fuel (S (S fuel))) in Hd; [|lia].
  assert (∀ m, m ∈ markers → c ∈ select_class m s ↔ m ∈ roles e) as Hsel.
  { intros m Hm. rewrite (elem_of_select_class _ _ _ e), has_class_roles by done.
    apply bool_decide_spec. }
  pose proof Hct as Hct'. unfold contract in Hct'. rewrite all_elements_spec in Hct'.
  destruct (Hct' c e He) as (_ & Hinput & Hone).
  destruct (roles e) as [|m [|??]] eqn:Hr; simpl in Hone; [| |lia].
  - destruct (decide (tag e = "textarea")) as [Ht|Ht].
    + do 4 right. assert (c ∈ select_tag "textarea" s) as Hta
        by (apply select_tag_spec; eauto).
      rewrite (dispatch_textarea First) in Hd by done. split; [done|congruence].
    + left. rewrite (dispatch_installed First _ _ _ _ e), expected_roles, Hr in Hd by done.
      rewrite (bool_decide_eq_false_2 (tag e = "textarea")) in Hd by done. simpl in Hd.
      split; [congruence|]. intros _ m Hm. rewrite Hsel by done.
      apply not_elem_of_nil.
  - assert (m ∈ markers) as Hm by (apply (roles_markers e); rewrite Hr; left).
    assert (c ∈ select_class m s) as Hc by (apply Hsel; [done|left]).
    destruct (decide (ev = Change)) as [->|Hne].
    + unfold markers in Hm. apply elem_of_cons in Hm as [->|Hm]; [|
        apply elem_of_cons in Hm as [->|Hm]; [|apply list_elem_of_singleton in Hm as ->]].
      * right. left. split; [done|].
        rewrite (dispatch_togglevisible First) in Hd by done. congruence.
      * right. right. left. split; [done|].
        rewrite dispatch_togglechildren_A in Hd by done. unfold cascade, children_of.
        congruence.
      * do 3 right. left. split; [done|].
        rewrite dispatch_togglesection in Hd by done. congruence.
    + left. rewrite (dispatch_installed First _ _ _ _ e), expected_roles, Hr in Hd by done.
      rewrite Hinput in Hd by done. split; [|done].
      assert (handlers_for ev
                ((if bool_decide ("togglevisible" ∈ [m]) then [(Change, fn_UpdateRow)] else [])
                 ++ (if bool_decide ("togglechildren" ∈ [m])
                     then [(Change, fn_togglechildren (cascades First))] else [])
                 ++ (if cascades First && bool_decide ("togglesection" ∈ [m])
                     then [(Change, fn_togglesection)] else [])
                 ++ (if bool_decide ("input" = "textarea")
                     then [(Change, fn_update c); (KeyUp, fn_update c);
                           (KeyDown, fn_update c)] else [])) = []) as Hnone.
      { unfold handlers_for. repeat case_bool_decide; simpl;
          rewrite ?filter_cons_False, ?filter_nil by (simpl; congruence); done. }
      rewrite Hnone in Hd. simpl in Hd. congruence.
Qed.

Lemma same_wiring_shape s s' : same_wiring s s' → agree shape s s'.
Proof.
  intros [_ _ H]. revert H. apply agree_weaken. unfold shape. by intros e e' [= -> -> _].
Qed.

Lemma same_wiring_select s s' :
  same_wiring s s' → select_class "togglevisible" s' = select_class "togglevisible" s.
Proof.
  intros Hw. apply select_class_agree; [apply Hw|].
  generalize (same_wiring_shape _ _ Hw). apply agree_weaken.
  intros e e'. by apply has_class_shape.
Qed.

Lemma same_wiring_wired s s' :
  same_wiring s s' →
  contract s ∧ installed First s ∧ rows_exclusive s →
  contract s' ∧ installed First s' ∧ rows_exclusive s'.
Proof.
  intros Hw (Hct & Hi & Hex).
  destruct (same_wiring_invariants First s s' Hw) as [? ?]; [done|].
  split_and!; [done..|].
  revert Hex. apply rows_exclusive_shape; [apply Hw|by apply same_wiring_shape].
Qed.

Lemma select_one_role m m' s c :
  contract s → m ∈ markers → m' ∈ markers →
  c ∈ select_class m s → c ∈ select_class m' s → m = m'.
Proof.
  intros Hct Hm Hm' Hc Hc'.
  destruct (contract_select m s c) as (e & He & Hr & _); [done..|].
  destruct (contract_select m' s c) as (e' & He' & Hr' & _); [done..|].
  congruence.
Qed.

Lemma update_semantic self s : agree semantic s (update self s).
Proof. unfold update. eapply agree_trans; by apply agree_each_el. Qed.

(** After an event fired at [c], every row check-box is in sync with its
    row, provided all of them were before, except possibly [c] itself when
    the event is [change]. *)
Lemma rows_after_event fuel ev c s s' :
  contract s → installed First s → rows_exclusive s →
  is_Some (elem_at c s) → ev ≠ Resize →
  (∀ c', c' ∈ select_class "togglevisible" s → c' ≠ c ∨ ev ≠ Change → row_in_sync c' s) →
  dispatch (run fuel) ev c s = Some s' →
  ∀ c', c' ∈ select_class "togglevisible" s' → row_in_sync c' s'.
Proof.
  intros Hct Hi Hex [e He] Hev Hsync Hd c'.
  assert (benign s s') as Hb.
  { revert Hd. apply dispatch_rel; [exact benign_refl|exact benign_trans|].
    intros ????. apply run_benign. }
  rewrite (select_class_agree _ s s'); [|apply Hb|by apply benign_class]. intros Hc'.
  assert (markers = ["togglevisible"; "togglechildren"; "togglesection"]) as Hmk by done.
  rewrite rows_exclusive_spec in Hex.
  destruct (dispatch_outcome fuel ev c s s' e) as
    [[-> Hnot]|[[Hc ->]|[[Hc ->]|[[Hc ->]|[Hc ->]]]]]; try done.
  - apply Hsync; [done|]. destruct (decide (ev = Change)) as [Hch|?]; [|by right].
    left. intros ->. apply (Hnot Hch "togglevisible"); [rewrite Hmk; set_solver|done].
  - destruct (decide (c' = c)) as [->|Hne].
    { rewrite UpdateRow_sync. apply sync_ignore_in_sync. }
    rewrite UpdateRow_sync. apply (in_sync_transfer "tr" c' s).
    + by apply benign_tag; rewrite <-UpdateRow_sync.
    + apply sync_ignore_is_checked.
    + intros r Hr. unfold matches_class. rewrite sync_ignore_other; [done|].
      destruct (closest_cases "tr" c s) as [->|[r' Hr']]; [apply not_elem_of_nil|].
      rewrite Hr'. intros ->%list_elem_of_singleton. destruct Hne.
      by apply (Hex c c' r').
    + apply Hsync; [done|by left].
  - assert (c' ≠ c) as Hne.
    { intros ->. by pose proof (select_one_role "togglevisible" "togglechildren" s c
        Hct ltac:(rewrite Hmk; set_solver) ltac:(rewrite Hmk; set_solver) Hc' Hc). }
    destruct (decide (c' ∈ children_of c s)) as [Hin|Hout]; [by apply cascade_rows|].
    apply (in_sync_transfer "tr" c' s).
    + by apply benign_tag.
    + rewrite cascade_is_checked. unfold is_checked. by rewrite togglechildren_B_out.
    + intros r Hr. unfold matches_class, cascade. rewrite each_UpdateRow_other.
      * apply (matches_class_agree "ignore" s (togglechildren_B c s) r).
        by apply agree_each_el.
      * intros ch Hch.
        rewrite (closest_agree "tr" ch s) by apply benign_tag, togglechildren_B_benign.
        destruct (closest_cases "tr" ch s) as [->|[r' Hr']]; [apply not_elem_of_nil|].
        rewrite Hr'. intros ->%list_elem_of_singleton. destruct Hout.
        rewrite (Hex ch c' r'); [done|by apply (children_of_select c)|done..].
    + apply Hsync; [done|by left].
  - assert (c' ≠ c) as Hne.
    { intros ->. by pose proof (select_one_role "togglevisible" "togglesection" s c
        Hct ltac:(rewrite Hmk; set_solver) ltac:(rewrite Hmk; set_solver) Hc' Hc). }
    rewrite togglesection_sync. apply (in_sync_transfer "tr" c' s).
    + by apply benign_tag; rewrite <-togglesection_sync.
    + apply sync_ignore_is_checked.
    + intros r Hr. unfold matches_class. rewrite sync_ignore_tagged_other; [done|].
      apply tagged_tr_not_table. by apply closest_Some in Hr as (_ & ? & _).
    + apply Hsync; [done|by left].
  - assert (c' ≠ c) as Hne.
    { intros ->. apply select_tag_spec in Hc as (e1 & He1 & Ht1).
      destruct (contract_select "togglevisible" s c) as (e2 & He2 & _ & Ht2 & _);
        [done|rewrite Hmk; set_solver|done|]. congruence. }
    apply (in_sync_semantic "tr" c' s); [apply update_semantic|].
    apply Hsync; [done|by left].
Qed.

(** X8.  The first copy keeps every row in sync.  Take a page without
    listeners that meets the DOM contract and in which no row is the
    closest row of two row check-boxes, and let the ready callback of the
    first copy run.  Then after any sequence of clicks on check-boxes
    (row check-boxes, children toggles, section toggles or others), edits
    with their key and change events, and window resizes, every row
    check-box is unchecked iff its closest row carries ["ignore"]. *)
Theorem X8_first_copy_keeps_rows_in_sync fuel s0 loaded s :
  fresh s0 → contract s0 → rows_exclusive s0 →
  ready_A (S fuel) s0 = Some loaded → session loaded s →
  ∀ c, c ∈ select_class "togglevisible" s → row_in_sync c s.
Proof.
  intros Hf Hct Hex Hready Hsession.
  enough ((contract s ∧ installed First s ∧ rows_exclusive s)
          ∧ ∀ c, c ∈ select_class "togglevisible" s → row_in_sync c s) as [_ H] by done.
  induction Hsession as [|s fuel' c s' _ [Hw Hsync] Htag Hd
                         |s fuel' ev t txt s' _ [Hw Hsync] Ht Hev Hd
                         |s fuel' w h s' _ [Hw Hsync] Hd].
  - rewrite ready_A_eq in Hready by done. injection Hready as <-.
    pose proof (ready_A_undisturbed s0) as Hu. split.
    + split_and!.
      * revert Hct. by apply contract_shape, undisturbed_shape.
      * by apply ready_A_installed.
      * revert Hex. apply rows_exclusive_shape; [apply Hu|by apply undisturbed_shape].
    + intros c. rewrite (undisturbed_select_class _ s0) by done. intros Hc r Hr.
      apply (in_sync_undisturbed _ _ s0) in Hr as [Hr ->]; [|done].
      apply ready_A_rows; [done..|]. intros c' Hc' Hr'.
      rewrite rows_exclusive_spec in Hex. by rewrite (Hex c c' r).
  - set (s1 := alter_el flip c s) in *.
    assert (same_wiring s s1) as Hsw.
    { split; [apply elements_alter_el|done|by apply agree_alter_el]. }
    destruct (same_wiring_wired s s1 Hsw Hw) as (Hct1 & Hi1 & Hex1).
    assert (benign s1 s') as Hb.
    { revert Hd. apply dispatch_rel; [exact benign_refl|exact benign_trans|].
      intros ????. apply run_benign. }
    split; [apply (same_wiring_wired s1); [by apply benign_same_wiring|done]|].
    apply (rows_after_event fuel' Change c s1); try done.
    + unfold s1. rewrite elem_at_alter_el_eq. apply fmap_is_Some.
      unfold matches_tag in Htag. by destruct (elem_at c s); [eauto|].
    + intros c'. rewrite (same_wiring_select s s1) by done. intros Hc' [Hne|?]; [|done].
      apply (in_sync_transfer "tr" c' s).
      * by apply agree_alter_el.
      * unfold is_checked, s1. by rewrite elem_at_alter_el_ne.
      * intros r _. apply matches_class_agree. by apply agree_alter_el.
      * by apply Hsync.
  - set (s1 := alter_el (set_value txt) t s) in *.
    assert (same_wiring s s1) as Hsw.
    { split; [apply elements_alter_el|done|by apply agree_alter_el]. }
    destruct (same_wiring_wired s s1 Hsw Hw) as (Hct1 & Hi1 & Hex1).
    assert (benign s1 s') as Hb.
    { revert Hd. apply dispatch_rel; [exact benign_refl|exact benign_trans|].
      intros ????. apply run_benign. }
    split; [apply (same_wiring_wired s1); [by apply benign_same_wiring|done]|].
    apply (rows_after_event fuel' ev t s1); try done.
    + unfold s1. rewrite elem_at_alter_el_eq. by apply fmap_is_Some.
    + intros ->. set_solver.
    + intros c'. rewrite (same_wiring_select s s1) by done. intros Hc' _.
      apply (in_sync_semantic "tr" c' s); [by apply agree_alter_el|by apply Hsync].
  - set (s1 := set_viewport w h s) in *.
    assert (same_wiring s s1) as Hsw by by split.
    destruct (same_wiring_wired s s1 Hsw Hw) as (Hct1 & Hi1 & Hex1).
    apply (dispatch_window_mono_le fuel' (S fuel')) in Hd; [|lia].
    rewrite (dispatch_resize First) in Hd by done. injection Hd as <-.
    assert (benign s1 (each update (select_tag "textarea" s1) s1)) as Hb.
    { apply each_rel; [exact benign_refl|exact benign_trans|]. intros. apply update_benign. }
    split; [apply (same_wiring_wired s1); [by apply benign_same_wiring|done]|].
    intros c. rewrite (select_class_agree _ s1); [|apply Hb|by apply benign_class].
    rewrite (same_wiring_select s s1) by done. intros Hc.
    apply (in_sync_semantic "tr" c s1).
    + apply each_agree. intros. apply update_semantic.
    + apply (in_sync_semantic "tr" c s); [done|by apply Hsync].
Qed.

Lemma tables_exclusive_spec s :
  tables_exclusive s ↔
  ∀ c c' r, c ∈ select_class "togglesection" s → c' ∈ select_class "togglesection" s →
            closest "table" c s = [r] → closest "table" c' s = [r] → c' = c.
Proof.
  unfold tables_exclusive. rewrite Forall_forall. split.
  - intros H c c' r Hc Hc' Hr Hr'. specialize (H c Hc). rewrite Forall_forall in H.
    destruct (H c' Hc') as [Hnil| ->]; [congruence| |done]. by rewrite Hr in Hnil.
  - intros H c Hc. apply Forall_forall. intros c' Hc' Heq.
    destruct (closest_cases "table" c s) as [?|[r Hr]]; [by left|]. right.
    apply (H c c' r); congruence.
Qed.

Lemma tables_exclusive_shape s s' :
  elements s' = elements s → agree shape s s' → tables_exclusive s → tables_exclusive s'.
Proof.
  intros He Hsh. rewrite !tables_exclusive_spec. intros H c c' r.
  assert (agree tag s s') as Htag.
  { revert Hsh. apply agree_weaken. by intros e e' [= -> _]. }
  assert (agree (has_class "togglesection") s s') as Hcl.
  { revert Hsh. apply agree_weaken. intros e e'. by apply has_class_shape. }
  rewrite (select_class_agree _ s s'), !(closest_agree _ _ s s') by done. apply H.
Qed.

Lemma each_UpdateRow_tagged_other l s q :
  matches_tag "tr" s q = false → elem_at q (each UpdateRow l s) = elem_at q s.
Proof.
  revert s. induction l as [|a l IH]; intros s Hq; [done|].
  assert (elem_at q (UpdateRow a s) = elem_at q s) as Ha
    by (rewrite UpdateRow_sync; by apply sync_ignore_tagged_other).
  rewrite each_cons, IH, Ha; [done|]. unfold matches_tag. by rewrite Ha.
Qed.

Lemma tagged_table_not_tr s q : matches_tag "table" s q → matches_tag "tr" s q = false.
Proof.
  unfold matches_tag. destruct (elem_at q s) as [e|]; simpl; [|done].
  intros ->%bool_decide_unpack. done.
Qed.

Lemma same_wiring_select_class m s s' :
  m ≠ "ignore" → same_wiring s s' → select_class m s' = select_class m s.
Proof.
  intros Hm Hw. apply select_class_agree; [apply Hw|].
  generalize (same_wiring_shape _ _ Hw). apply agree_weaken.
  intros e e'. by apply has_class_shape.
Qed.

(** The same for section check-boxes and their tables. *)
Lemma tables_after_event fuel ev c s s' :
  contract s → installed First s → tables_exclusive s →
  is_Some (elem_at c s) → ev ≠ Resize →
  (∀ c', c' ∈ select_class "togglesection" s → c' ≠ c ∨ ev ≠ Change → table_in_sync c' s) →
  dispatch (run fuel) ev c s = Some s' →
  ∀ c', c' ∈ select_class "togglesection" s' → table_in_sync c' s'.
Proof.
  intros Hct Hi Hex [e He] Hev Hsync Hd c'.
  assert (benign s s') as Hb.
  { revert Hd. apply dispatch_rel; [exact benign_refl|exact benign_trans|].
    intros ????. apply run_benign. }
  rewrite (select_class_agree _ s s'); [|apply Hb|by apply benign_class]. intros Hc'.
  assert (markers = ["togglevisible"; "togglechildren"; "togglesection"]) as Hmk by done.
  rewrite tables_exclusive_spec in Hex.
  assert (∀ r, closest "table" c' s = [r] → matches_tag "tr" s r = false) as Hnotr.
  { intros r Hr. apply tagged_table_not_tr. by apply closest_Some in Hr as (_ & ? & _). }
  assert (∀ m, m ≠ "togglesection" → m ∈ markers → c ∈ select_class m s → c' ≠ c) as Hrole.
  { intros m Hm Hin Hc ->. destruct Hm.
    by apply (select_one_role m "togglesection" s c); [|rewrite ?Hmk; set_solver..]. }
  destruct (dispatch_outcome fuel ev c s s' e) as
    [[-> Hnot]|[[Hc ->]|[[Hc ->]|[[Hc ->]|[Hc ->]]]]]; try done.
  - apply Hsync; [done|]. destruct (decide (ev = Change)) as [Hch|?]; [|by right].
    left. intros ->. apply (Hnot Hch "togglesection"); [rewrite Hmk; set_solver|done].
  - apply (in_sync_transfer "table" c' s).
    + by apply benign_tag.
    + rewrite UpdateRow_sync. apply sync_ignore_is_checked.
    + intros r Hr. unfold matches_class. rewrite UpdateRow_sync.
      rewrite sync_ignore_tagged_other; [done|by apply Hnotr].
    + apply Hsync; [done|]. left. apply (Hrole "togglevisible"); [done|rewrite Hmk; set_solver|done].
  - assert (c' ∉ children_of c s) as Hout.
    { intros Hin%children_of_select.
      by pose proof (select_one_role "togglevisible" "togglesection" s c'
        Hct ltac:(rewrite Hmk; set_solver) ltac:(rewrite Hmk; set_solver) Hin Hc'). }
    apply (in_sync_transfer "table" c' s).
    + by apply benign_tag.
    + rewrite cascade_is_checked. unfold is_checked. by rewrite togglechildren_B_out.
    + intros r Hr. unfold matches_class, cascade. rewrite each_UpdateRow_tagged_other.
      * apply (matches_class_agree "ignore" s (togglechildren_B c s) r).
        by apply agree_each_el.
      * rewrite (matches_tag_agree "tr" s) by apply benign_tag, togglechildren_B_benign.
        by apply Hnotr.
    + apply Hsync; [done|]. left. apply (Hrole "togglechildren"); [done|rewrite Hmk; set_solver|done].
  - destruct (decide (c' = c)) as [->|Hne].
    { rewrite togglesection_sync. apply sync_ignore_in_sync. }
    rewrite togglesection_sync. apply (in_sync_transfer "table" c' s).
    + by apply benign_tag; rewrite <-togglesection_sync.
    + apply sync_ignore_is_checked.
    + intros r Hr. unfold matches_class. rewrite sync_ignore_other; [done|].
      destruct (closest_cases "table" c s) as [->|[r' Hr']]; [apply not_elem_of_nil|].
      rewrite Hr'. intros ->%list_elem_of_singleton. destruct Hne.
      by apply (Hex c c' r').
    + apply Hsync; [done|by left].
  - assert (c' ≠ c) as Hne.
    { intros ->. apply select_tag_spec in Hc as (e1 & He1 & Ht1).
      destruct (contract_select "togglesection" s c) as (e2 & He2 & _ & Ht2 & _);
        [done|rewrite Hmk; set_solver|done|]. congruence. }
    apply (in_sync_semantic "table" c' s); [apply update_semantic|].
    apply Hsync; [done|by left].
Qed.

Lemma same_wiring_wired_tables s s' :
  same_wiring s s' →
  contract s ∧ installed First s ∧ tables_exclusive s →
  contract s' ∧ installed First s' ∧ tables_exclusive s'.
Proof.
  intros Hw (Hct & Hi & Hex).
  destruct (same_wiring_invariants First s s' Hw) as [? ?]; [done|].
  split_and!; [done..|].
  revert Hex. apply tables_exclusive_shape; [apply Hw|by apply same_wiring_shape].
Qed.

(** X9.  The first copy keeps every table in sync with its section
    check-box.  On a page as in X8 in which no table is the closest table
    of two section check-boxes, after the ready callback and any sequence
    of clicks, edits and resizes, every section check-box is unchecked
    iff its closest table carries ["ignore"]. *)
Theorem X9_first_copy_keeps_tables_in_sync fuel s0 loaded s :
  fresh s0 → contract s0 → tables_exclusive s0 →
  ready_A (S fuel) s0 = Some loaded → session loaded s →
  ∀ c, c ∈ select_class "togglesection" s → table_in_sync c s.
Proof.
  intros Hf Hct Hex Hready Hsession.
  enough ((contract s ∧ installed First s ∧ tables_exclusive s)
          ∧ ∀ c, c ∈ select_class "togglesection" s → table_in_sync c s) as [_ H] by done.
  induction Hsession as [|s fuel' c s' _ [Hw Hsync] Htag Hd
                         |s fuel' ev t txt s' _ [Hw Hsync] Ht Hev Hd
                         |s fuel' w h s' _ [Hw Hsync] Hd].
  - rewrite ready_A_eq in Hready by done. injection Hready as <-.
    pose proof (ready_A_undisturbed s0) as Hu. split.
    + split_and!.
      * revert Hct. by apply contract_shape, undisturbed_shape.
      * by apply ready_A_installed.
      * revert Hex. apply tables_exclusive_shape; [apply Hu|by apply undisturbed_shape].
    + intros c. rewrite (undisturbed_select_class _ s0) by done. intros Hc r Hr.
      apply (in_sync_undisturbed _ _ s0) in Hr as [Hr ->]; [|done].
      apply ready_A_tables; [done..|]. intros c' Hc' Hr'.
      rewrite tables_exclusive_spec in Hex. by rewrite (Hex c c' r).
  - set (s1 := alter_el flip c s) in *.
    assert (same_wiring s s1) as Hsw.
    { split; [apply elements_alter_el|done|by apply agree_alter_el]. }
    destruct (same_wiring_wired_tables s s1 Hsw Hw) as (Hct1 & Hi1 & Hex1).
    assert (benign s1 s') as Hb.
    { revert Hd. apply dispatch_rel; [exact benign_refl|exact benign_trans|].
      intros ????. apply run_benign. }
    split; [apply (same_wiring_wired_tables s1); [by apply benign_same_wiring|done]|].
    apply (tables_after_event fuel' Change c s1); try done.
    + unfold s1. rewrite elem_at_alter_el_eq. apply fmap_is_Some.
      unfold matches_tag in Htag. by destruct (elem_at c s); [eauto|].
    + intros c'. rewrite (same_wiring_select_class _ s s1) by done. intros Hc' [Hne|?]; [|done].
      apply (in_sync_transfer "table" c' s).
      * by apply agree_alter_el.
      * unfold is_checked, s1. by rewrite elem_at_alter_el_ne.
      * intros r _. apply matches_class_agree. by apply agree_alter_el.
      * by apply Hsync.
  - set (s1 := alter_el (set_value txt) t s) in *.
    assert (same_wiring s s1) as Hsw.
    { split; [apply elements_alter_el|done|by apply agree_alter_el]. }
    destruct (same_wiring_wired_tables s s1 Hsw Hw) as (Hct1 & Hi1 & Hex1).
    assert (benign s1 s') as Hb.
    { revert Hd. apply dispatch_rel; [exact benign_refl|exact benign_trans|].
      intros ????. apply run_benign. }
    split; [apply (same_wiring_wired_tables s1); [by apply benign_same_wiring|done]|].
    apply (tables_after_event fuel' ev t s1); try done.
    + unfold s1. rewrite elem_at_alter_el_eq. by apply fmap_is_Some.
    + intros ->. set_solver.
    + intros c'. rewrite (same_wiring_select_class _ s s1) by done. intros Hc' _.
      apply (in_sync_semantic "table" c' s); [by apply agree_alter_el|by apply Hsync].
  - set (s1 := set_viewport w h s) in *.
    assert (same_wiring s s1) as Hsw by by split.
    destruct (same_wiring_wired_tables s s1 Hsw Hw) as (Hct1 & Hi1 & Hex1).
    apply (dispatch_window_mono_le fuel' (S fuel')) in Hd; [|lia].
    rewrite (dispatch_resize First) in Hd by done. injection Hd as <-.
    assert (benign s1 (each update (select_tag "textarea" s1) s1)) as Hb.
    { apply each_rel; [exact benign_refl|exact benign_trans|]. intros. apply update_benign. }
    split; [apply (same_wiring_wired_tables s1); [by apply benign_same_wiring|done]|].
    intros c. rewrite (select_class_agree _ s1); [|apply Hb|by apply benign_class].
    rewrite (same_wiring_select_class _ s s1) by done. intros Hc.
    apply (in_sync_semantic "table" c s1).
    + apply each_agree. intros. apply update_semantic.
    + apply (in_sync_semantic "table" c s); [done|by apply Hsync].
Qed.

End Scripts.

(** * The statements at concrete pages *)

Lemma C1_witness :
  row_in_sync box_R1 (UpdateRow box_R1 scenario)
  ∧ row_in_sync box_R1 (ready_B line_layout scenario)
  ∧ row_in_sync set_box (ready_B line_layout (two_boxes "togglevisible"))
  ∧ (∃ s', ready_A line_layout 1 scenario = Some s'
           ∧ (row_in_sync box_R1 s'
              ↔ closest "tr" box_R1 scenario = []
                ∨ is_checked box_R1 scenario
                  = is_checked (last_sharing "tr" "togglevisible" box_R1 scenario) scenario))
  ∧ (∃ s', dispatch (run line_layout 1) Change box_R1
             (uncheck box_R1 (ready_B line_layout scenario)) = Some s'
           ∧ row_in_sync box_R1 s').
Proof.
  destruct (C1_row_visibility_sync line_layout) as (H1 & H2 & H3 & H4). split_and!.
  - apply H1.
  - apply H2; [compute_done|right; compute_done].
  - apply H2; [compute_done|right; compute_done].
  - apply H3; compute_done.
  - apply (H4 Second); compute_done.
Defined.

Lemma C1_counterexample :
  fresh (two_boxes "togglevisible") ∧ contract (two_boxes "togglevisible")
  ∧ clear_box ∈ select_class "togglevisible" (two_boxes "togglevisible")
  ∧ ¬ row_in_sync clear_box (ready_B line_layout (two_boxes "togglevisible"))
  ∧ ∃ s', ready_A line_layout 1 (two_boxes "togglevisible") = Some s'
          ∧ ¬ row_in_sync clear_box s'.
Proof.
  split_and!; [compute_done..| |].
  - intros Hsync. specialize (Hsync the_row). vm_compute in Hsync.
    by specialize (Hsync eq_refl).
  - exists (ready_A_result line_layout (two_boxes "togglevisible")).
    split; [vm_compute; reflexivity|].
    intros Hsync. specialize (Hsync the_row). vm_compute in Hsync.
    by specialize (Hsync eq_refl).
Qed.

Lemma C2_witness :
  checked <$> elem_at box_R2 (togglechildren_B toggle_C (uncheck toggle_C scenario))
  = Some (is_checked toggle_C (togglechildren_B toggle_C (uncheck toggle_C scenario)))
  ∧ ∃ s', dispatch (run line_layout 2) Change toggle_C
            (uncheck toggle_C (ready_B line_layout scenario)) = Some s'
          ∧ children_of toggle_C s'
            = children_of toggle_C (uncheck toggle_C (ready_B line_layout scenario))
          ∧ ∀ c, c ∈ children_of toggle_C s' →
                 checked <$> elem_at c s' = Some (is_checked toggle_C s').
Proof.
  destruct (C2_children_follow_toggle line_layout) as (H1 & H2). split.
  - apply H1. compute_done.
  - apply (H2 Second); compute_done.
Defined.

Lemma C3_witness :
  ∃ s', dispatch (run line_layout 2) Change toggle_C
          (uncheck toggle_C (ready_A_result line_layout scenario)) = Some s'
        ∧ ∀ c, c ∈ children_of toggle_C s' →
               is_checked c s' = is_checked toggle_C s' ∧ row_in_sync c s'.
Proof.
  destruct (C3_cascade_rows line_layout) as (H1 & _). apply H1; compute_done.
Defined.

Lemma C4_witness :
  ∃ s', dispatch (run line_layout 2) Change toggle_C
          (uncheck toggle_C (ready_B line_layout scenario)) = Some s'
        ∧ agree classes (uncheck toggle_C (ready_B line_layout scenario)) s'.
Proof.
  destruct (C4_copies_differ line_layout) as (H1 & _). apply H1; compute_done.
Defined.

Lemma C5_witness :
  table_in_sync section_box (togglesection section_box form)
  ∧ (∃ s', ready_A line_layout 1 form = Some s'
           ∧ (table_in_sync section_box s'
              ↔ closest "table" section_box form = []
                ∨ is_checked section_box form
                  = is_checked (last_sharing "table" "togglesection" section_box form) form))
  ∧ (∃ s', dispatch (run line_layout 1) Change section_box
             (ready_A_result line_layout form) = Some s'
           ∧ table_in_sync section_box s')
  ∧ dispatch (run line_layout 1) Change section_box (ready_B line_layout form)
    = Some (ready_B line_layout form).
Proof.
  destruct (C5_section_sync line_layout) as (H1 & H2 & H3 & H4). split_and!.
  - apply H1.
  - apply H2; compute_done.
  - apply H3; compute_done.
  - apply H4; compute_done.
Defined.

Lemma C5_counterexample :
  fresh (two_boxes "togglesection") ∧ contract (two_boxes "togglesection")
  ∧ clear_box ∈ select_class "togglesection" (two_boxes "togglesection")
  ∧ ∃ s', ready_A line_layout 1 (two_boxes "togglesection") = Some s'
          ∧ ¬ table_in_sync clear_box s'.
Proof.
  split_and!; [compute_done..|].
  exists (ready_A_result line_layout (two_boxes "togglesection")).
  split; [vm_compute; reflexivity|].
  intros Hsync. specialize (Hsync the_table). vm_compute in Hsync.
  by specialize (Hsync eq_refl).
Qed.

Lemma C6_witness :
  height_of first_area (update line_layout first_area form) = Some "48px"
  ∧ dispatch (run line_layout 1) KeyUp first_area (ready_B line_layout form)
    = Some (update line_layout first_area (ready_B line_layout form))
  ∧ (∃ s', dispatch_window (run line_layout 1) Resize (ready_B line_layout form) = Some s'
           ∧ height_of second_area s' = Some "16px")
  ∧ (∃ s1, undisturbed form s1
           ∧ height_of second_area (ready_B line_layout form)
             = Some (pretty (line_layout (css "height" "1em" [second_area] s1) second_area)
                     +:+ "px"))
  ∧ (∃ s' s1, ready_A line_layout 1 form = Some s' ∧ undisturbed form s1
           ∧ height_of second_area s'
             = Some (pretty (line_layout (css "height" "1em" [second_area] s1) second_area)
                     +:+ "px")).
Proof.
  destruct (C6_textarea_autosize line_layout) as (H1 & H2 & H3 & H4 & H5). split_and!.
  - destruct (H1 first_area form) as (_ & -> & _); [compute_done|]. vm_compute. reflexivity.
  - apply (H2 Second); compute_done.
  - destruct (H3 Second 0 (ready_B line_layout form)) as (s' & Hs' & Hh); [compute_done|].
    exists s'. split; [done|].
    rewrite (Hh [first_area] second_area []); [|vm_compute; reflexivity].
    vm_compute. reflexivity.
  - apply H4. compute_done.
  - apply H5; compute_done.
Defined.

Lemma C7_witness :
  ∃ s1, dispatch (run line_layout 1) Change box_R1 (ready_B line_layout scenario) = Some s1
        ∧ dispatch (run line_layout 1) Change box_R1 s1 = Some s1.
Proof.
  destruct (C7_row_sync_idempotent line_layout) as (_ & H2).
  apply (H2 Second); compute_done.
Defined.

Lemma C8_witness :
  UpdateRow stray_box form = form
  ∧ ∀ fuel, run line_layout (S fuel) fn_UpdateRow (Elem stray_box) form = Some form.
Proof.
  destruct (C8_no_row_no_op line_layout stray_box form) as (_ & H2). apply H2.
  compute_done.
Defined.

Lemma C9_witness :
  elem_at row_R2 (UpdateRow box_R1 scenario) = elem_at row_R2 scenario.
Proof.
  destruct (C9_UpdateRow_frame box_R1 scenario) as (_ & _ & _ & H4 & _).
  apply H4. compute_done.
Defined.

Lemma C10_witness :
  ∃ s', dispatch (run line_layout 2) Change outer_toggle (ready_A_result line_layout nested)
        = Some s'
    ∧ (∀ q, q ∈ children_of outer_toggle (ready_A_result line_layout nested) →
            checked <$> elem_at q s'
            = Some (is_checked outer_toggle (ready_A_result line_layout nested)))
    ∧ (∀ q, q ∉ children_of outer_toggle (ready_A_result line_layout nested) →
            checked <$> elem_at q s'
            = checked <$> elem_at q (ready_A_result line_layout nested)).
Proof.
  destruct (C10_children_set line_layout) as (_ & _ & H3 & _).
  apply (H3 First); compute_done.
Defined.

Lemma X4_witness :
  dispatch (run line_layout 3) Change looping_box (ready_A_result line_layout looping) = None.
Proof.
  apply (X4_self_cascade_diverges line_layout (ready_A_result line_layout looping) looping_box);
    compute_done.
Defined.

Lemma X1_witness : installed Second (ready_B line_layout form).
Proof.
  destruct (X1_ready_B_binds line_layout form) as (_ & _ & _ & H). apply H. compute_done.
Defined.

Lemma X2_witness :
  ∃ s', ready_A line_layout 1 form = Some s'
        ∧ installed First s' ∧ contract s' ∧ undisturbed form s'
        ∧ ∀ q, listeners <$> elem_at q s' = expected First q <$> elem_at q form.
Proof.
  apply X2_ready_A_binds; compute_done.
Defined.

Lemma X3_witness :
  benign (uncheck toggle_C (ready_A_result line_layout scenario))
         (cascade toggle_C (uncheck toggle_C (ready_A_result line_layout scenario))).
Proof.
  destruct (X3_events_keep_skeleton line_layout 2 Change) as (H & _).
  apply (H toggle_C). vm_compute. reflexivity.
Defined.

Lemma X5_witness : togglesection stray_box form = form.
Proof.
  destruct (X5_togglesection_handler stray_box form) as (_ & H & _). apply H. compute_done.
Defined.

Lemma X6_witness :
  togglechildren_B stray_box form = form
  ∧ run line_layout 1 (fn_togglechildren true) (Elem stray_box) form = Some form.
Proof.
  destruct (X6_togglechildren_handler line_layout stray_box form) as (_ & H1 & H2).
  destruct H2 as [H2 H3]; [apply H1; compute_done|].
  split; [exact H2|exact (H3 0)].
Defined.

Lemma X8_witness :
  row_in_sync box_R1
    (cascade toggle_C (alter_el flip toggle_C (ready_A_result line_layout scenario))).
Proof.
  apply (X8_first_copy_keeps_rows_in_sync line_layout 0 scenario
           (ready_A_result line_layout scenario)).
  - compute_done.
  - compute_done.
  - compute_done.
  - vm_compute. reflexivity.
  - apply (session_click line_layout _ (ready_A_result line_layout scenario) 2 toggle_C).
    + apply session_loaded.
    + vm_compute. exact I.
    + vm_compute. reflexivity.
  - compute_done.
Defined.

Lemma X9_witness :
  table_in_sync section_box
    (togglesection section_box
       (alter_el flip section_box (ready_A_result line_layout form))).
Proof.
  apply (X9_first_copy_keeps_tables_in_sync line_layout 0 form
           (ready_A_result line_layout form)).
  - compute_done.
  - compute_done.
  - compute_done.
  - vm_compute. reflexivity.
  - apply (session_click line_layout _ (ready_A_result line_layout form) 1 section_box).
    + apply session_loaded.
    + vm_compute. exact I.
    + vm_compute. reflexivity.
  - compute_done.
Defined.
